(** * CatGPT relay: a shallow embedding of [src/index.js]

    The bot relays Telegram text messages to an Ollama chat endpoint,
    keeps a per-user conversation context in a process-wide [Map], and
    sends the answer back in pieces of at most 4000 UTF-16 code units.

    The embedding follows the source line by line:
    - JavaScript strings are sequences of UTF-16 code units;
    - arrays are objects on a heap, and the [Map] holds references to
      them, so that [push] through an alias is visible to every holder;
    - [async] code is a state-and-exception monad that also records the
      calls made to the outside world (channel sends, fetch, timers);
    - the outside world (channel, endpoint, timer firings) is a record of
      outcomes, one per call site of the handler;
    - time only appears as the delay of the endpoint's answer, which
      [fetch] compares with the timeout of its abort signal;
    - updates are handled one after the other: two handlers for the same
      user never interleave here;
    - a promise that a command handler leaves unawaited and whose
      rejection nobody handles ends the process. *)

From Stdlib Require Import ZArith NArith Lia Ascii DecimalString.
From stdpp Require Import base option list gmap strings.
From Equations Require Import Equations.

Open Scope Z_scope.

(** ** 1. JavaScript strings *)

(** A string value: its UTF-16 code units, in order. *)
Abbreviation jsstring := (list N).

(** A source literal that only has ASCII characters. *)
Fixpoint lit (s : string) : jsstring :=
  match s with
  | EmptyString => []
  | String c rest => N_of_ascii c :: lit rest
  end.

(** [s.length] *)
Definition str_length (s : jsstring) : Z := Z.of_nat (length s).

(** [`${n}`] for a non-negative integer [n]. *)
Definition number_to_string (n : N) : jsstring :=
  lit (NilZero.string_of_uint (N.to_uint n)).

(** [hay.includes(needle)], as a proposition. *)
Definition includes (needle hay : jsstring) : Prop :=
  ∃ before rest, hay = before ++ needle ++ rest.

(** The two emoji of the replies, as surrogate pairs. *)
Definition crying_cat : jsstring := [0xD83D; 0xDE3F]%N.
Definition broom : jsstring := [0xD83E; 0xDDF9]%N.
Definition newline : jsstring := [10]%N.

(** ** 2. [response.match(/.{1,4000}/gs)] *)

(** All matches of [/.{1,limit}/gs] in [s], left to right.  With the [s]
    flag and no [u] flag the dot takes any one code unit, the quantifier is
    greedy, and matching resumes where the previous match ended; the search
    stops when nothing is left.  (A bound of 0 is not a regular expression;
    the program only uses 4000.) *)
Equations? match_all {A : Type} (limit : nat) (s : list A) : list (list A)
  by wf (length s) lt :=
  match_all 0 _ := [];
  match_all (S m) [] := [];
  match_all (S m) (c :: s') := (c :: take m s') :: match_all (S m) (drop m s').
Proof. rewrite length_drop. simpl. lia. Qed.

(** [String.prototype.match] with a global pattern: [null] when there is no
    match, the array of matches otherwise. *)
Definition js_match {A : Type} (limit : nat) (s : list A) : option (list (list A)) :=
  match match_all limit s with
  | [] => None
  | ms => Some ms
  end.

(** Telegram's limit is 4096; the program cuts at 4000. *)
Definition CHUNK : nat := 4000.

(** The texts that lines 94-101 pass to [ctx.reply], in order. *)
Definition delivery_plan (response : jsstring) : list jsstring :=
  if 4000 <? str_length response
  then default [] (js_match CHUNK response)
  else [response].

(** ** 3. Values of the program *)

(** [role: 'user'] and [role: 'assistant']. *)
Inductive role := user | assistant.

#[global] Instance role_eq_dec : EqDecision role.
Proof. solve_decision. Defined.

(** One message of a conversation: [{ role, content }]. *)
Record turn := Turn { turn_role : role; content : jsstring }.

(** What the handler reads of a thrown value: [error.name],
    [error.message] and [error.cause?.code]. *)
Record js_error := JsError {
  name : jsstring;
  message : jsstring;
  cause_code : option jsstring
}.

(** [new Error(msg)] *)
Definition Error (msg : jsstring) : js_error :=
  {| name := lit "Error"; message := msg; cause_code := None |}.

(** How a promise of the channel settles. *)
Inductive send_result := Delivered | Rejected (e : js_error).

(** The second argument of [fetch], with the address. *)
Record request := Request {
  url : jsstring;
  model : jsstring;
  messages : list turn;
  stream : bool;
  timeout_ms : Z
}.

(** What the program does with a response body: [await response.json()]
    and then [data.message.content]. *)
Inductive body :=
| Content (text : jsstring)
| Malformed (e : js_error).

Record response := Response { status : N; response_body : body }.

(** [response.ok]: the status is in the range 200-299. *)
Definition ok (r : response) : bool :=
  ((200 <=? status r) && (status r <=? 299))%N.

(** ** 4. The outside world *)

(** The platform's rejection of [fetch] when the connection is refused:
    a [TypeError] whose cause carries the code [ECONNREFUSED]. *)
Definition connection_refused : js_error :=
  {| name := lit "TypeError"; message := lit "fetch failed";
     cause_code := Some (lit "ECONNREFUSED") |}.

(** The platform's rejection when [AbortSignal.timeout] fires: a
    [DOMException] named [TimeoutError]. *)
Definition timeout_error : js_error :=
  {| name := lit "TimeoutError";
     message := lit "The operation was aborted due to timeout";
     cause_code := None |}.

(** What the inference endpoint does with one request. *)
Inductive endpoint :=
| Refuses
| Silent
| Answers (after_ms : Z) (st : N) (b : body)
| Breaks (e : js_error).

(** The places where the handlers call [ctx.reply]. *)
Inductive reply_site :=
| Chunk (i : nat)
| Apology
| Confirmation
| Unexpected.

(** The outside world during the handling of one update: how each call
    to it settles, and which timer callbacks run while the handler is
    suspended on the endpoint or on a send. *)
Record world := World {
  w_typing_first : send_result;
  w_endpoint : endpoint;
  w_ticks_inference : list send_result;
  w_reply : reply_site → send_result;
  w_ticks_reply : reply_site → list send_result
}.

(** The calls to the outside world, as the handler makes them. *)
Inductive event :=
| ETyping (r : send_result)
| ESetInterval (id : nat) (period_ms : Z)
| EClearInterval (id : nat)
| EFetch (req : request)
| EReply (text : jsstring) (r : send_result).

(** ** 5. Program state and the monad of handlers *)

(** [heap]: every array created so far, an array's address is its index.
    [userContexts]: the module-level [Map], from user id to array.
    [timers]: every interval created so far, and whether it is armed. *)
Record state := State {
  heap : list (list turn);
  userContexts : gmap Z nat;
  timers : list bool
}.

Definition initial : state := State [] ∅ [].

Inductive res (A : Type) :=
| Ok (a : A)
| Throw (e : js_error).
Arguments Ok {A} a.
Arguments Throw {A} e.

Record outcome (A : Type) := Outcome {
  after : state;
  trace : list event;
  result : res A
}.
Arguments Outcome {A} after trace result.
Arguments after {A} o.
Arguments trace {A} o.
Arguments result {A} o.

Definition M (A : Type) : Type := state → outcome A.

Definition ret {A} (a : A) : M A := λ s, Outcome s [] (Ok a).

Definition throw {A} (e : js_error) : M A := λ s, Outcome s [] (Throw e).

(** The calls made before [o], then those of [o]. *)
Definition prepend {A} (tr : list event) (o : outcome A) : outcome A :=
  match o with
  | Outcome s tr' r => Outcome s (tr ++ tr') r
  end.

Definition bind {A B} (m : M A) (k : A → M B) : M B := λ s,
  match m s with
  | Outcome s' tr (Ok a) => prepend tr (k a s')
  | Outcome s' tr (Throw e) => Outcome s' tr (Throw e)
  end.

Notation "'let*' x ':=' m 'in' k" := (bind m (λ x, k))
  (at level 10, x binder, m at level 100, k at level 200).

(** [try { m } catch (error) { h error }] *)
Definition try_catch {A} (m : M A) (h : js_error → M A) : M A := λ s,
  match m s with
  | Outcome s' tr (Ok a) => Outcome s' tr (Ok a)
  | Outcome s' tr (Throw e) => prepend tr (h e s')
  end.

(** What a [finally] block makes of the result of its [try]: it replaces
    it only when it throws itself. *)
Definition finally_result {A} (r : res A) (o : outcome unit) : outcome A :=
  match o with
  | Outcome s tr (Ok _) => Outcome s tr r
  | Outcome s tr (Throw e) => Outcome s tr (Throw e)
  end.

(** [try { m } finally { f }] *)
Definition try_finally {A} (m : M A) (f : M unit) : M A := λ s,
  match m s with
  | Outcome s' tr r => prepend tr (finally_result r (f s'))
  end.

(** [promise.catch(() => { })] *)
Definition swallow (m : M unit) : M unit := try_catch m (λ _, ret tt).

(** A promise that the handler neither awaits nor gives a handler
    (lines 13, 25 and 37: [ctx.reply(...)] as a statement, without
    [.catch]).  The handler goes on at once and cannot see how the promise
    settles; the value is the rejection that is left without a handler,
    when the promise rejects. *)
Definition floating (m : M unit) : M (option js_error) := λ s,
  match m s with
  | Outcome s' tr (Ok _) => Outcome s' tr (Ok None)
  | Outcome s' tr (Throw e) => Outcome s' tr (Ok (Some e))
  end.

(** The Node process after a handler: it runs on with its state, or it
    has ended on an unhandled rejection, and every stored history with it.
    (The program needs a Node with the global [fetch] and
    [AbortSignal.timeout]; there an unhandled rejection ends the process,
    and the source installs no handler for it.) *)
Inductive process :=
| Running (s : state)
| Exited (e : js_error).

(** The rejection that a handler left without a handler, if any. *)
Definition unhandled (o : outcome (option js_error)) : option js_error :=
  match result o with
  | Ok (Some e) => Some e
  | _ => None
  end.

Definition process_after (o : outcome (option js_error)) : process :=
  match unhandled o with
  | Some e => Exited e
  | None => Running (after o)
  end.

Definition emit (e : event) : M unit := λ s, Outcome s [e] (Ok tt).

(** *** Arrays and the Map *)

Definition new_array (l : list turn) : M nat := λ s,
  Outcome (State (heap s ++ [l]) (userContexts s) (timers s)) []
    (Ok (length (heap s))).

Definition array_read (a : nat) : M (list turn) := λ s,
  Outcome s [] (Ok (default [] (heap s !! a))).

(** [array.length] *)
Definition array_length (a : nat) : M Z :=
  let* l := array_read a in ret (Z.of_nat (length l)).

(** [array.push(t)]: in place. *)
Definition array_push (a : nat) (t : turn) : M unit := λ s,
  Outcome (State (alter (λ l, l ++ [t]) a (heap s)) (userContexts s) (timers s))
    [] (Ok tt).

(** The elements that [l.slice(-n)] keeps: the last [n], or all of them. *)
Definition last_n {A} (n : nat) (l : list A) : list A :=
  drop (length l - n) l.

(** [array.slice(-n)]: a new array. *)
Definition array_slice_last (a : nat) (n : nat) : M nat :=
  let* l := array_read a in new_array (last_n n l).

(** [userContexts.get(userId)] *)
Definition map_get (userId : Z) : M (option nat) := λ s,
  Outcome s [] (Ok (userContexts s !! userId)).

(** [userContexts.set(userId, a)] *)
Definition map_set (userId : Z) (a : nat) : M unit := λ s,
  Outcome (State (heap s) (<[userId := a]> (userContexts s)) (timers s)) []
    (Ok tt).

(** [userContexts.delete(userId)] *)
Definition map_delete (userId : Z) : M unit := λ s,
  Outcome (State (heap s) (delete userId (userContexts s)) (timers s)) []
    (Ok tt).

(** What a reader of the Map sees for a user:
    the elements of [userContexts.get(userId) || []]. *)
Definition history (s : state) (userId : Z) : list turn :=
  match userContexts s !! userId with
  | Some a => default [] (heap s !! a)
  | None => []
  end.

(** A reference held by the Map points to an array. *)
Definition store_ok (s : state) : Prop :=
  ∀ u a, userContexts s !! u = Some a → (a < length (heap s))%nat.

(** *** The channel and the timers *)

Definition settle (r : send_result) : M unit :=
  match r with
  | Delivered => ret tt
  | Rejected e => throw e
  end.

(** [ctx.sendChatAction('typing')] *)
Definition sendChatAction (r : send_result) : M unit :=
  let* _ := emit (ETyping r) in settle r.

(** [ctx.reply(text)], not yet awaited. *)
Definition reply (r : send_result) (text : jsstring) : M unit :=
  let* _ := emit (EReply text r) in settle r.

(** [setInterval(callback, period)]: a new armed timer. *)
Definition setInterval (period_ms : Z) : M nat := λ s,
  Outcome (State (heap s) (userContexts s) (timers s ++ [true]))
    [ESetInterval (length (timers s)) period_ms]
    (Ok (length (timers s))).

(** [clearInterval(id)] *)
Definition clearInterval (id : nat) : M unit := λ s,
  Outcome (State (heap s) (userContexts s) (<[id := false]> (timers s)))
    [EClearInterval id] (Ok tt).

(** The callback of line 87, once per firing of the interval. *)
Definition typing_callback (r : send_result) : M unit :=
  swallow (sendChatAction r).

Fixpoint fire (ticks : list send_result) : M unit :=
  match ticks with
  | [] => ret tt
  | r :: rest => let* _ := typing_callback r in fire rest
  end.

(** [await ctx.reply(text)] inside the [try] of the text handler, where
    the interval is armed. *)
Definition await_reply (w : world) (site : reply_site) (text : jsstring) : M unit :=
  let* _ := fire (w_ticks_reply w site) in
  reply (w_reply w site) text.

(** ** 6. The program *)

(** [process.env], as far as the relay reads it. *)
Record process_env := ProcessEnv {
  env_OLLAMA_HOST : option jsstring;
  env_OLLAMA_MODEL : option jsstring
}.

(** [v || d] for a string or [undefined]: the empty string is falsy. *)
Definition or_else (v : option jsstring) (d : jsstring) : jsstring :=
  match v with
  | Some (c :: rest) => c :: rest
  | _ => d
  end.

Definition OLLAMA_HOST (env : process_env) : jsstring :=
  or_else (env_OLLAMA_HOST env) (lit "http://ollama:11434").

Definition OLLAMA_MODEL (env : process_env) : jsstring :=
  or_else (env_OLLAMA_MODEL env) (lit "mistral").

(** [await fetch(url, { ..., signal: AbortSignal.timeout(ms) })]: the
    request leaves, the armed interval fires while it is pending, and the
    promise settles with the first of: the endpoint's answer, the
    platform's rejection, the timeout. *)
Definition fetch (w : world) (req : request) : M response :=
  let* _ := emit (EFetch req) in
  let* _ := fire (w_ticks_inference w) in
  match w_endpoint w with
  | Refuses => throw connection_refused
  | Silent => throw timeout_error
  | Answers t st b =>
      if t <? timeout_ms req then ret (Response st b) else throw timeout_error
  | Breaks e => throw e
  end.

(** [(await response.json()).message.content] *)
Definition json_message_content (r : response) : M jsstring :=
  match response_body r with
  | Content text => ret text
  | Malformed e => throw e
  end.

(** Lines 41-76. *)
Definition generateResponse (env : process_env) (w : world)
    (userId : Z) (prompt : jsstring) : M jsstring :=
  let* stored := map_get userId in
  let* context :=
    match stored with
    | Some a => ret a
    | None => new_array []
    end in
  let* _ := array_push context (Turn user prompt) in
  let* n := array_length context in
  let* context :=
    if 10 <? n then array_slice_last context 10 else ret context in
  let* snapshot := array_read context in
  let* response :=
    fetch w {| url := OLLAMA_HOST env ++ lit "/api/chat";
               model := OLLAMA_MODEL env;
               messages := snapshot;
               stream := false;
               timeout_ms := 120000 |} in
  if negb (ok response) then
    throw (Error (lit "Ollama error: " ++ number_to_string (status response)))
  else
    let* assistantMessage := json_message_content response in
    let* _ := array_push context (Turn assistant assistantMessage) in
    let* _ := map_set userId context in
    ret assistantMessage.

(** [for (const chunk of chunks) { await ctx.reply(chunk); }] *)
Fixpoint reply_each (w : world) (i : nat) (chunks : list jsstring) : M unit :=
  match chunks with
  | [] => ret tt
  | chunk :: rest =>
      let* _ := await_reply w (Chunk i) chunk in reply_each w (S i) rest
  end.

(** Lines 94-101. *)
Definition deliver (w : world) (response : jsstring) : M unit :=
  if 4000 <? str_length response then
    reply_each w 0 (default [] (js_match CHUNK response))
  else
    await_reply w (Chunk 0) response.

Definition unavailable_text : jsstring :=
  lit "Ollama service is not available. Please try again later.".

Definition too_long_text : jsstring :=
  lit "Response took too long. Please try a shorter message.".

(** Lines 104-110: the text put into the apology. *)
Definition errorMsg (error : js_error) : jsstring :=
  let msg := message error in
  let msg :=
    if bool_decide (cause_code error = Some (lit "ECONNREFUSED"))
    then unavailable_text else msg in
  let msg :=
    if bool_decide (name error = lit "TimeoutError")
    then too_long_text else msg in
  msg.

(** Lines 112-113. *)
Definition apology (msg : jsstring) : jsstring :=
  crying_cat ++ lit " Sorry, I encountered an error: " ++ msg
  ++ newline ++ newline ++ lit "Please try again or use /clear to reset.".

(** Lines 78-118: [bot.on('text', ...)].  Writing to the console is not
    modelled. *)
Definition on_text (env : process_env) (w : world)
    (userId : Z) (userMessage : jsstring) : M unit :=
  let* _ := sendChatAction (w_typing_first w) in
  let* typingInterval := setInterval 5000 in
  try_finally
    (try_catch
       (let* response := generateResponse env w userId userMessage in
        deliver w response)
       (λ error, await_reply w Apology (apology (errorMsg error))))
    (clearInterval typingInterval).

Definition unexpected_text : jsstring :=
  crying_cat ++ lit " An unexpected error occurred. Please try again.".

(** Lines 121-124: [bot.catch]. *)
Definition bot_catch (w : world) (err : js_error) : M unit :=
  swallow (reply (w_reply w Unexpected) unexpected_text).

(** A text update as the framework runs it: the handler, and [bot.catch]
    on what it throws. *)
Definition handle_text (env : process_env) (w : world)
    (userId : Z) (userMessage : jsstring) : M unit :=
  try_catch (on_text env w userId userMessage) (bot_catch w).

Definition cleared_text : jsstring :=
  broom ++ lit " Conversation history cleared!".

(** Lines 35-38: [bot.command('clear', ...)]. *)
Definition on_clear (w : world) (userId : Z) : M (option js_error) :=
  let* _ := map_delete userId in
  floating (reply (w_reply w Confirmation) cleared_text).

(** *** Reading a trace *)

(** The texts passed to [ctx.reply], in order. *)
Definition replies (tr : list event) : list jsstring :=
  omap (λ e, match e with EReply text _ => Some text | _ => None end) tr.

(** The texts that the channel accepted, in order. *)
Definition delivered (tr : list event) : list jsstring :=
  omap (λ e, match e with EReply text Delivered => Some text | _ => None end) tr.

(** The requests sent to the inference endpoint. *)
Definition fetches (tr : list event) : list request :=
  omap (λ e, match e with EFetch req => Some req | _ => None end) tr.

(** The intervals armed and the intervals cleared, in order. *)
Definition armed (tr : list event) : list nat :=
  omap (λ e, match e with ESetInterval id _ => Some id | _ => None end) tr.

Definition cleared (tr : list event) : list nat :=
  omap (λ e, match e with EClearInterval id => Some id | _ => None end) tr.

(** Successive calls of [generateResponse] for one user, each in its own
    world; a call that throws leaves the state it reached.  [exchanges] is
    the state after the last call, [answers] what each call returned or
    threw. *)
Fixpoint exchanges (env : process_env) (userId : Z)
    (calls : list (world * jsstring)) (s : state) : state :=
  match calls with
  | [] => s
  | (w, prompt) :: rest =>
      exchanges env userId rest (after (generateResponse env w userId prompt s))
  end.

Fixpoint answers (env : process_env) (userId : Z)
    (calls : list (world * jsstring)) (s : state) : list (res jsstring) :=
  match calls with
  | [] => []
  | (w, prompt) :: rest =>
      let o := generateResponse env w userId prompt s in
      result o :: answers env userId rest (after o)
  end.

Definition is_ok {A} (r : res A) : bool :=
  match r with Ok _ => true | Throw _ => false end.

Definition is_throw {A} (r : res A) : bool := negb (is_ok r).

(** *** The two halves of [generateResponse], for the proofs *)

(** Lines 43-51: the array that the request is built from. *)
Definition window (userId : Z) (prompt : jsstring) : M nat :=
  let* stored := map_get userId in
  let* context :=
    match stored with
    | Some a => ret a
    | None => new_array []
    end in
  let* _ := array_push context (Turn user prompt) in
  let* n := array_length context in
  if 10 <? n then array_slice_last context 10 else ret context.

Definition request_for (env : process_env) (snapshot : list turn) : request :=
  {| url := OLLAMA_HOST env ++ lit "/api/chat";
     model := OLLAMA_MODEL env;
     messages := snapshot;
     stream := false;
     timeout_ms := 120000 |}.

(** Lines 53-75, for the array [context]. *)
Definition complete (env : process_env) (w : world) (userId : Z)
    (context : nat) : M jsstring :=
  let* snapshot := array_read context in
  let* response := fetch w (request_for env snapshot) in
  if negb (ok response) then
    throw (Error (lit "Ollama error: " ++ number_to_string (status response)))
  else
    let* assistantMessage := json_message_content response in
    let* _ := array_push context (Turn assistant assistantMessage) in
    let* _ := map_set userId context in
    ret assistantMessage.

(** What lines 53-69 make of the endpoint's behaviour: the text of the
    answer, or the error thrown ([generateResponse_result] below). *)
Definition verdict (w : world) : res jsstring :=
  match w_endpoint w with
  | Refuses => Throw connection_refused
  | Silent => Throw timeout_error
  | Breaks e => Throw e
  | Answers t st b =>
      if t <? 120000 then
        if ok (Response st b) then
          match b with
          | Content text => Ok text
          | Malformed e => Throw e
          end
        else Throw (Error (lit "Ollama error: " ++ number_to_string st))
      else Throw timeout_error
  end.

(** The message of the error of line 65. *)
Definition status_text (st : N) : jsstring :=
  lit "Ollama error: " ++ number_to_string st.

(** The states that the bot can be in: updates are handled one after the
    other, each to its end. *)
Inductive reachable (env : process_env) : state → Prop :=
| reach_initial : reachable env initial
| reach_text w u msg s :
    reachable env s → reachable env (after (handle_text env w u msg s))
| reach_clear w u s :
    reachable env s → reachable env (after (on_clear w u s)).

(** The state in which the [try] statement of the text handler starts:
    the interval of line 86 is armed. *)
Definition armed_state (s : state) : state :=
  State (heap s) (userContexts s) (timers s ++ [true]).

(** The state in which the text handler ends when it got as far as the
    [try] statement: [s'] with the handler's interval disarmed. *)
Definition disarmed_state (s s' : state) : state :=
  State (heap s') (userContexts s') (timers s ++ [false]).

(** The endpoint has not answered when the timeout of [ms] expires. *)
Definition no_answer_within (ms : Z) (ep : endpoint) : bool :=
  match ep with
  | Silent => true
  | Answers t _ _ => ms <? t
  | _ => false
  end.

(** A trace without its typing signals. *)
Definition without_typing (tr : list event) : list event :=
  omap (λ e, match e with ETyping _ => None | _ => Some e end) tr.

(** Two worlds that differ at most in the periodic signals: in how many
    there are and in how each of them settles. *)
Definition same_but_ticks (w w' : world) : Prop :=
  w_typing_first w = w_typing_first w'
  ∧ w_endpoint w = w_endpoint w'
  ∧ ∀ site, w_reply w site = w_reply w' site.

(** Two outcomes that differ at most in the typing signals sent. *)
Definition agree {A} (o o' : outcome A) : Prop :=
  after o = after o' ∧ result o = result o'
  ∧ without_typing (trace o) = without_typing (trace o').

(** A computation that leaves the timers alone. *)
Definition quiet {A} (m : M A) : Prop :=
  ∀ s, timers (after (m s)) = timers s
       ∧ armed (trace (m s)) = [] ∧ cleared (trace (m s)) = [].

(** ** 7. Sample inputs *)

Definition default_env : process_env := ProcessEnv None None.

Definition obliging (text : jsstring) : world :=
  {| w_typing_first := Delivered;
     w_endpoint := Answers 1500 200 (Content text);
     w_ticks_inference := [];
     w_reply := λ _, Delivered;
     w_ticks_reply := λ _, [] |}.

Definition long_reply : jsstring := replicate (Z.to_nat 9000) 97%N.

Definition refusing : world :=
  {| w_typing_first := Delivered;
     w_endpoint := Refuses;
     w_ticks_inference := [Delivered; Rejected timeout_error];
     w_reply := λ _, Rejected timeout_error;
     w_ticks_reply := λ _, [Delivered] |}.

Definition silent : world :=
  {| w_typing_first := Delivered;
     w_endpoint := Silent;
     w_ticks_inference := replicate 23 Delivered;
     w_reply := λ _, Delivered;
     w_ticks_reply := λ _, [] |}.

Definition not_found : world :=
  {| w_typing_first := Delivered;
     w_endpoint := Answers 40 404 (Malformed (Error (lit "Unexpected token")));
     w_ticks_inference := [];
     w_reply := λ _, Delivered;
     w_ticks_reply := λ _, [] |}.

Definition six_calls : list (world * jsstring) :=
  [(obliging (lit "a1"), lit "u1"); (obliging (lit "a2"), lit "u2");
   (obliging (lit "a3"), lit "u3"); (obliging (lit "a4"), lit "u4");
   (obliging (lit "a5"), lit "u5"); (obliging (lit "a6"), lit "u6")].

(** The store after one exchange of user 7. *)
Definition seeded : state :=
  exchanges default_env 7 [(obliging (lit "hi there"), lit "hello")] initial.

(** ** 8. The other commands and further notions *)

Definition cat_face : jsstring := [0xD83D; 0xDC31]%N.
Definition bullet : jsstring := [0x2022]%N.

(** Lines 14-20: the text of [/start]. *)
Definition start_text : jsstring :=
  cat_face ++ lit " Meow! I'm CatGPT!" ++ newline ++ newline
  ++ lit "I'm an AI assistant. "
  ++ lit "Just send me a message and I'll respond!" ++ newline ++ newline
  ++ lit "Commands:" ++ newline
  ++ lit "/start - Show this message" ++ newline
  ++ lit "/help - Get help" ++ newline
  ++ lit "/clear - Clear conversation history".

(** Lines 26-31: the text of [/help]. *)
Definition help_text : jsstring :=
  cat_face ++ lit " CatGPT Help" ++ newline ++ newline
  ++ lit "Just send me any message and I'll respond using AI!"
  ++ newline ++ newline
  ++ lit "Tips:" ++ newline
  ++ bullet ++ lit " I remember our conversation context" ++ newline
  ++ bullet ++ lit " Use /clear to start fresh" ++ newline
  ++ bullet ++ lit " Be patient - responses may take a moment".

(** Lines 12-22: [bot.command('start', ...)]; [r] is how the send
    settles, which the handler does not await. *)
Definition on_start (r : send_result) : M (option js_error) :=
  floating (reply r start_text).

(** Lines 24-33: [bot.command('help', ...)]. *)
Definition on_help (r : send_result) : M (option js_error) :=
  floating (reply r help_text).

(** No two users of the Map share an array. *)
Definition no_alias (s : state) : Prop :=
  ∀ u v a, userContexts s !! u = Some a → userContexts s !! v = Some a → u = v.

(** The turns that a run of calls adds to a conversation when each call
    returns: the prompt, then the answer. *)
Fixpoint transcript (calls : list (world * jsstring))
    (results : list (res jsstring)) : list turn :=
  match calls, results with
  | (_, prompt) :: calls', Ok text :: results' =>
      Turn user prompt :: Turn assistant text :: transcript calls' results'
  | _, _ => []
  end.

(** A world whose first typing signal goes through, whose endpoint
    answers [text] in time with status 200, and whose channel accepts the
    first [k] sends of the answer and rejects the next one with [e]. *)
Definition breaks_at (k : nat) (e : js_error) (text : jsstring) : world :=
  {| w_typing_first := Delivered;
     w_endpoint := Answers 1500 200 (Content text);
     w_ticks_inference := [Delivered];
     w_reply := λ site,
       match site with
       | Chunk j => if decide (j = k) then Rejected e else Delivered
       | _ => Delivered
       end;
     w_ticks_reply := λ _, [] |}.

(** An error with the name of a timeout and the cause of a refused
    connection, and a world whose endpoint throws a given error. *)
Definition confused_error : js_error :=
  {| name := lit "TimeoutError"; message := lit "socket hang up";
     cause_code := Some (lit "ECONNREFUSED") |}.

Definition breaking (e : js_error) : world :=
  {| w_typing_first := Delivered;
     w_endpoint := Breaks e;
     w_ticks_inference := [];
     w_reply := λ _, Delivered;
     w_ticks_reply := λ _, [] |}.

(** ** Chunking lemmas *)

Lemma match_all_nil {A} limit : match_all limit (@nil A) = [].
Proof. destruct limit; by simp match_all. Qed.

Section Chunking.
Context {A : Type}.
Variable limit : nat.
Hypothesis limit_pos : (0 < limit)%nat.

Lemma match_all_step (s : list A) :
  s ≠ [] → match_all limit s = take limit s :: match_all limit (drop limit s).
Proof using limit_pos.
  destruct limit as [|m]; [lia|].
  destruct s as [|c s']; [done|]. intros _. by simp match_all.
Qed.

Lemma match_all_concat (s : list A) : concat (match_all limit s) = s.
Proof using limit_pos.
  destruct limit as [|m]; [lia|]. clear limit_pos.
  funelim (match_all (S m) s); simp match_all; [done|].
  simpl. f_equal.
  match goal with IH : concat _ = _ |- _ => rewrite IH end.
  apply take_drop.
Qed.

Lemma match_all_bounded (s : list A) :
  Forall (λ c, 1 ≤ length c ≤ limit)%nat (match_all limit s).
Proof using limit_pos.
  destruct limit as [|m]; [lia|]. clear limit_pos.
  funelim (match_all (S m) s); simp match_all; [constructor|].
  constructor; [|done].
  simpl. rewrite length_take. lia.
Qed.

Lemma match_all_nonempty (s : list A) : s ≠ [] → match_all limit s ≠ [].
Proof using limit_pos. intros Hs. by rewrite match_all_step. Qed.
End Chunking.

(** ** The monad *)

Lemma prepend_nil {A} (o : outcome A) : prepend [] o = o.
Proof. by destruct o. Qed.

Lemma prepend_prepend {A} tr1 tr2 (o : outcome A) :
  prepend tr1 (prepend tr2 o) = prepend (tr1 ++ tr2) o.
Proof. destruct o. simpl. by rewrite app_assoc. Qed.

Lemma after_prepend {A} tr (o : outcome A) : after (prepend tr o) = after o.
Proof. by destruct o. Qed.

Lemma trace_prepend {A} tr (o : outcome A) : trace (prepend tr o) = tr ++ trace o.
Proof. by destruct o. Qed.

Lemma result_prepend {A} tr (o : outcome A) : result (prepend tr o) = result o.
Proof. by destruct o. Qed.

Lemma bind_ok {A B} (m : M A) (k : A → M B) s s' tr a :
  m s = Outcome s' tr (Ok a) → bind m k s = prepend tr (k a s').
Proof. unfold bind. by intros ->. Qed.

Lemma bind_throw {A B} (m : M A) (k : A → M B) s s' tr e :
  m s = Outcome s' tr (Throw e) → bind m k s = Outcome s' tr (Throw e).
Proof. unfold bind. by intros ->. Qed.

Lemma bind_assoc {A B C} (m : M A) (f : A → M B) (g : B → M C) s :
  bind (bind m f) g s = bind m (λ a, bind (f a) g) s.
Proof.
  unfold bind. destruct (m s) as [s1 t1 [a|e]]; [|done].
  destruct (f a s1) as [s2 t2 [b|e]]; simpl; [|done].
  destruct (g b s2) as [s3 t3 r]; simpl. by rewrite app_assoc.
Qed.

Lemma bind_ext {A B} (m : M A) (f g : A → M B) s :
  (∀ a s', f a s' = g a s') → bind m f s = bind m g s.
Proof.
  intros Hfg. unfold bind. destruct (m s) as [s1 t1 [a|e]]; [|done].
  by rewrite Hfg.
Qed.

Lemma generateResponse_split env w u p s :
  generateResponse env w u p s
  = (let* context := window u p in complete env w u context) s.
Proof.
  unfold generateResponse, window.
  rewrite bind_assoc. apply bind_ext; intros stored s1.
  rewrite bind_assoc. apply bind_ext; intros c s2.
  rewrite bind_assoc. apply bind_ext; intros [] s3.
  rewrite bind_assoc. reflexivity.
Qed.

(** ** The interval's callback never throws *)

Lemma typing_callback_spec r s :
  typing_callback r s = Outcome s [ETyping r] (Ok tt).
Proof. by destruct r. Qed.

Lemma fire_spec ticks s : fire ticks s = Outcome s (ETyping <$> ticks) (Ok tt).
Proof.
  induction ticks as [|r ticks IH]; [done|].
  cbn [fire]. rewrite (bind_ok _ _ _ _ _ _ (typing_callback_spec r s)).
  by rewrite IH.
Qed.

Lemma await_reply_spec w site text s :
  await_reply w site text s
  = Outcome s ((ETyping <$> w_ticks_reply w site) ++ [EReply text (w_reply w site)])
      (match w_reply w site with Delivered => Ok tt | Rejected e => Throw e end).
Proof.
  unfold await_reply. rewrite (bind_ok _ _ _ _ _ _ (fire_spec _ s)).
  by destruct (w_reply w site).
Qed.

(** ** Lines 43-51: the context array *)

Lemma last_n_all {A} n (l : list A) : (length l ≤ n)%nat → last_n n l = l.
Proof. intros H. unfold last_n. by replace (length l - n)%nat with 0%nat by lia. Qed.

Lemma last_n_length {A} n (l : list A) : length (last_n n l) = (length l `min` n)%nat.
Proof. unfold last_n. rewrite length_drop. lia. Qed.

Lemma last_n_snoc {A} n (l : list A) x : last_n (S n) (l ++ [x]) = last_n n l ++ [x].
Proof.
  unfold last_n. rewrite length_app. simpl.
  replace (length l + 1 - S n)%nat with (length l - n)%nat by lia.
  rewrite drop_app_le; [done|]. lia.
Qed.

Ltac run :=
  cbn [bind prepend ret throw map_get map_set new_array array_read array_push
       array_length array_slice_last emit heap userContexts timers
       after trace result app].

Ltac split_on_length :=
  match goal with
  | |- context [10 <? ?n] =>
      let H := fresh "Hcmp" in
      destruct (Z.ltb_spec 10 n) as [H|H];
      rewrite length_app in H; simpl in H
  end.

Lemma push_fresh {A} (f : list A → list A) (hp : list (list A)) l :
  alter f (length hp) (hp ++ [l]) = hp ++ [f l].
Proof. rewrite alter_app_r_alt by lia. by rewrite Nat.sub_diag. Qed.

Lemma read_after_push {A} (f : list A → list A) (hp : list (list A)) a h :
  hp !! a = Some h → default [] (alter f a hp !! a) = f h.
Proof. intros Ha. by rewrite list_lookup_alter_eq, Ha. Qed.

Lemma window_absent u p s :
  userContexts s !! u = None →
  window u p s
  = Outcome (State (heap s ++ [[Turn user p]]) (userContexts s) (timers s)) []
      (Ok (length (heap s))).
Proof.
  intros Hu. unfold window. run. rewrite Hu. run.
  rewrite push_fresh, lookup_app_r, Nat.sub_diag by lia.
  reflexivity.
Qed.

Lemma window_short u p s a h :
  userContexts s !! u = Some a → heap s !! a = Some h → (length h < 10)%nat →
  window u p s
  = Outcome (State (alter (λ l, l ++ [Turn user p]) a (heap s))
               (userContexts s) (timers s)) [] (Ok a).
Proof.
  intros Hu Ha Hlen. unfold window. run. rewrite Hu. run.
  rewrite (read_after_push _ _ _ _ Ha).
  split_on_length; [lia|]. reflexivity.
Qed.

Lemma window_long u p s a h :
  userContexts s !! u = Some a → heap s !! a = Some h → (10 ≤ length h)%nat →
  window u p s
  = Outcome (State (alter (λ l, l ++ [Turn user p]) a (heap s)
                      ++ [last_n 10 (h ++ [Turn user p])])
               (userContexts s) (timers s)) []
      (Ok (length (heap s))).
Proof.
  intros Hu Ha Hlen. unfold window. run. rewrite Hu. run.
  rewrite (read_after_push _ _ _ _ Ha).
  split_on_length; [|lia].
  run. rewrite (read_after_push _ _ _ _ Ha).
  by rewrite length_alter.
Qed.

(** ** Lines 53-75: the request and its outcome *)

Lemma complete_spec env w u c s :
  complete env w u c s
  = Outcome
      (match verdict w with
       | Ok text =>
           State (alter (λ l, l ++ [Turn assistant text]) c (heap s))
             (<[u := c]> (userContexts s)) (timers s)
       | Throw _ => s
       end)
      (EFetch (request_for env (default [] (heap s !! c)))
         :: (ETyping <$> w_ticks_inference w))
      (verdict w).
Proof.
  unfold complete, fetch, verdict. run.
  rewrite bind_assoc. run. rewrite bind_assoc.
  rewrite (bind_ok _ _ _ _ _ _ (fire_spec _ s)).
  destruct (w_endpoint w) as [| |t st b|e]; run; rewrite ?app_nil_r; try done.
  cbn [timeout_ms request_for].
  destruct (t <? 120000); run; rewrite ?app_nil_r; [|done].
  destruct (ok _); cbn [negb status]; run; rewrite ?app_nil_r; [|done].
  destruct b; cbn [json_message_content response_body]; run;
    by rewrite ?app_nil_r.
Qed.

(** ** [generateResponse] as a whole *)

Lemma window_runs u p s :
  ∃ s1 c, window u p s = Outcome s1 [] (Ok c)
          ∧ userContexts s1 = userContexts s ∧ timers s1 = timers s.
Proof.
  unfold window. run.
  destruct (userContexts s !! u); run;
    match goal with |- context [10 <? ?n] => destruct (10 <? n) end;
    run; eauto.
Qed.

Lemma generateResponse_result env w u p s :
  result (generateResponse env w u p s) = verdict w.
Proof.
  rewrite generateResponse_split.
  destruct (window_runs u p s) as (s1 & c & Hw & _ & _).
  rewrite (bind_ok _ _ _ _ _ _ Hw), complete_spec. reflexivity.
Qed.

Lemma generateResponse_timers env w u p s :
  timers (after (generateResponse env w u p s)) = timers s.
Proof.
  rewrite generateResponse_split.
  destruct (window_runs u p s) as (s1 & c & Hw & _ & Ht).
  rewrite (bind_ok _ _ _ _ _ _ Hw), complete_spec. simpl.
  by destruct (verdict w).
Qed.

Lemma generateResponse_throw_map env w u p s e :
  verdict w = Throw e →
  userContexts (after (generateResponse env w u p s)) = userContexts s.
Proof.
  intros Hv. rewrite generateResponse_split.
  destruct (window_runs u p s) as (s1 & c & Hw & Hm & _).
  rewrite (bind_ok _ _ _ _ _ _ Hw), complete_spec. simpl.
  by rewrite Hv.
Qed.

Lemma history_at s u a l :
  userContexts s !! u = Some a → heap s !! a = Some l → history s u = l.
Proof. unfold history. by intros -> ->. Qed.

Lemma history_absent s u : userContexts s !! u = None → history s u = [].
Proof. unfold history. by intros ->. Qed.

Lemma generateResponse_history env w u p s :
  store_ok s →
  let o := generateResponse env w u p s in
  let sent := last_n 10 (history s u ++ [Turn user p]) in
  trace o = EFetch (request_for env sent) :: (ETyping <$> w_ticks_inference w)
  ∧ match verdict w with
    | Ok text => history (after o) u = sent ++ [Turn assistant text]
    | Throw _ =>
        history (after o) u
        = match userContexts s !! u with
          | Some _ => history s u ++ [Turn user p]
          | None => []
          end
    end.
Proof.
  intros Hok. cbv zeta. rewrite generateResponse_split.
  destruct (userContexts s !! u) as [a|] eqn:Hu.
  - destruct (lookup_lt_is_Some_2 _ _ (Hok _ _ Hu)) as [h Ha].
    rewrite (history_at _ _ _ _ Hu Ha).
    destruct (decide (length h < 10)%nat) as [Hlen|Hlen].
    + rewrite (bind_ok _ _ _ _ _ _ (window_short _ p _ _ _ Hu Ha Hlen)).
      rewrite complete_spec. simpl.
      rewrite (read_after_push _ _ _ _ Ha).
      rewrite last_n_all by (rewrite length_app; simpl; lia).
      split; [done|].
      destruct (verdict w); simpl.
      * unfold history. simpl. rewrite lookup_insert_eq.
        rewrite list_lookup_alter_eq, list_lookup_alter_eq, Ha. done.
      * unfold history. simpl. rewrite Hu.
        by rewrite list_lookup_alter_eq, Ha.
    + rewrite (bind_ok _ _ _ _ _ _ (window_long _ p _ _ _ Hu Ha ltac:(lia))).
      rewrite complete_spec. simpl.
      rewrite lookup_app_r, length_alter, Nat.sub_diag by (rewrite length_alter; lia).
      simpl. split; [done|].
      destruct (verdict w); simpl.
      * unfold history. simpl. rewrite lookup_insert_eq.
        rewrite <- (length_alter (λ l, l ++ [Turn user p]) (heap s) a).
        by rewrite push_fresh, lookup_app_r, Nat.sub_diag by lia.
      * unfold history. simpl. rewrite Hu.
        rewrite lookup_app_l by (rewrite length_alter; eauto).
        by rewrite list_lookup_alter_eq, Ha.
  - rewrite (history_absent _ _ Hu).
    rewrite (bind_ok _ _ _ _ _ _ (window_absent _ p _ Hu)).
    rewrite complete_spec. simpl.
    rewrite lookup_app_r, Nat.sub_diag by lia. simpl.
    split; [done|].
    destruct (verdict w); simpl.
    + unfold history. simpl. rewrite lookup_insert_eq.
      by rewrite push_fresh, lookup_app_r, Nat.sub_diag by lia.
    + unfold history. simpl. by rewrite Hu.
Qed.

Lemma store_ok_initial : store_ok initial.
Proof. intros u a. simpl. by rewrite lookup_empty. Qed.

Lemma generateResponse_store_ok env w u p s :
  store_ok s → store_ok (after (generateResponse env w u p s)).
Proof.
  intros Hok. rewrite generateResponse_split.
  assert (∃ s1 c, window u p s = Outcome s1 [] (Ok c)
                  ∧ userContexts s1 = userContexts s
                  ∧ (length (heap s) ≤ length (heap s1))%nat
                  ∧ (c < length (heap s1))%nat) as (s1 & c & Hw & Hm & Hlen & Hc).
  { destruct (userContexts s !! u) as [a|] eqn:Hu.
    - destruct (lookup_lt_is_Some_2 _ _ (Hok _ _ Hu)) as [h Ha].
      destruct (decide (length h < 10)%nat) as [Hlen|Hlen].
      + eexists _, _. split; [by apply (window_short _ p _ _ _ Hu Ha)|].
        simpl. rewrite length_alter. eauto using lookup_lt_Some.
      + eexists _, _. split; [apply (window_long _ p _ _ _ Hu Ha); lia|].
        simpl. rewrite length_app, length_alter. simpl. repeat split; lia.
    - eexists _, _. split; [by apply window_absent|].
      simpl. rewrite length_app. simpl. repeat split; lia. }
  rewrite (bind_ok _ _ _ _ _ _ Hw), complete_spec. simpl.
  assert (store_ok s1) as Hok1.
  { intros v a. rewrite Hm. intros Hv. specialize (Hok _ _ Hv). lia. }
  destruct (verdict w) as [text|e]; [|done].
  intros v b. simpl. rewrite length_alter.
  destruct (decide (u = v)) as [->|Hne].
  - rewrite lookup_insert_eq. by intros [= <-].
  - rewrite lookup_insert_ne by done. apply Hok1.
Qed.

(** ** Reading traces *)

Section TraceProjections.
Context {B : Type} (pick : event → option B).

Lemma omap_typing ticks :
  (∀ r, pick (ETyping r) = None) → omap pick (ETyping <$> ticks) = [].
Proof.
  intros Hpick. induction ticks as [|r ticks IH]; [done|].
  simpl. by rewrite Hpick.
Qed.
End TraceProjections.

Lemma replies_app tr1 tr2 : replies (tr1 ++ tr2) = replies tr1 ++ replies tr2.
Proof. apply omap_app. Qed.

Lemma delivered_app tr1 tr2 : delivered (tr1 ++ tr2) = delivered tr1 ++ delivered tr2.
Proof. apply omap_app. Qed.

Lemma fetches_app tr1 tr2 : fetches (tr1 ++ tr2) = fetches tr1 ++ fetches tr2.
Proof. apply omap_app. Qed.

Lemma armed_app tr1 tr2 : armed (tr1 ++ tr2) = armed tr1 ++ armed tr2.
Proof. apply omap_app. Qed.

Lemma cleared_app tr1 tr2 : cleared (tr1 ++ tr2) = cleared tr1 ++ cleared tr2.
Proof. apply omap_app. Qed.

Lemma replies_typing ticks : replies (ETyping <$> ticks) = [].
Proof. by apply omap_typing. Qed.

Lemma delivered_typing ticks : delivered (ETyping <$> ticks) = [].
Proof. by apply omap_typing. Qed.

Lemma fetches_typing ticks : fetches (ETyping <$> ticks) = [].
Proof. by apply omap_typing. Qed.

Lemma armed_typing ticks : armed (ETyping <$> ticks) = [].
Proof. by apply omap_typing. Qed.

Lemma cleared_typing ticks : cleared (ETyping <$> ticks) = [].
Proof. by apply omap_typing. Qed.

Create Rewrite HintDb traces.
#[local] Hint Rewrite replies_app delivered_app fetches_app armed_app cleared_app
  replies_typing delivered_typing fetches_typing armed_typing cleared_typing
  @trace_prepend @after_prepend @result_prepend app_nil_r : traces.

(** ** Control flow *)

Lemma outcome_eta {A} (o : outcome A) : o = Outcome (after o) (trace o) (result o).
Proof. by destruct o. Qed.

Lemma try_catch_ok {A} (m : M A) h s s' tr a :
  m s = Outcome s' tr (Ok a) → try_catch m h s = Outcome s' tr (Ok a).
Proof. unfold try_catch. by intros ->. Qed.

Lemma try_catch_throw {A} (m : M A) h s s' tr e :
  m s = Outcome s' tr (Throw e) → try_catch m h s = prepend tr (h e s').
Proof. unfold try_catch. by intros ->. Qed.

Lemma try_finally_eq {A} (m : M A) f s s' tr r :
  m s = Outcome s' tr r → try_finally m f s = prepend tr (finally_result r (f s')).
Proof. unfold try_finally. by intros ->. Qed.

(** ** Computations that leave the timers alone *)

Lemma quiet_ret {A} (a : A) : quiet (ret a).
Proof. by intros s. Qed.

Lemma quiet_throw {A} e : quiet (@throw A e).
Proof. by intros s. Qed.

Lemma quiet_bind {A B} (m : M A) (k : A → M B) :
  quiet m → (∀ a, quiet (k a)) → quiet (bind m k).
Proof.
  intros Hm Hk s. specialize (Hm s). unfold bind.
  destruct (m s) as [s1 t1 [a|e]]; simpl in *; [|done].
  specialize (Hk a s1). destruct Hm as (Ht & Ha & Hc).
  destruct (k a s1) as [s2 t2 r]; simpl in *.
  rewrite armed_app, cleared_app, Ha, Hc. destruct Hk as (-> & -> & ->). done.
Qed.

Lemma quiet_try_catch {A} (m : M A) h :
  quiet m → (∀ e, quiet (h e)) → quiet (try_catch m h).
Proof.
  intros Hm Hh s. specialize (Hm s). unfold try_catch.
  destruct (m s) as [s1 t1 [a|e]]; simpl in *; [done|].
  specialize (Hh e s1). destruct Hm as (Ht & Ha & Hc).
  destruct (h e s1) as [s2 t2 r]; simpl in *.
  rewrite armed_app, cleared_app, Ha, Hc. destruct Hh as (-> & -> & ->). done.
Qed.

Lemma quiet_await_reply w site text : quiet (await_reply w site text).
Proof.
  intros s. rewrite await_reply_spec. simpl.
  by rewrite armed_app, cleared_app, armed_typing, cleared_typing.
Qed.

Lemma quiet_reply_each w chunks : ∀ i, quiet (reply_each w i chunks).
Proof.
  induction chunks as [|c chunks IH]; intros i; simpl.
  - apply quiet_ret.
  - apply quiet_bind; [apply quiet_await_reply|]. intros _. apply IH.
Qed.

Lemma quiet_deliver w response : quiet (deliver w response).
Proof.
  unfold deliver. destruct (4000 <? str_length response).
  - apply quiet_reply_each.
  - apply quiet_await_reply.
Qed.

Lemma generateResponse_trace env w u p s :
  ∃ snapshot,
    trace (generateResponse env w u p s)
    = EFetch (request_for env snapshot) :: (ETyping <$> w_ticks_inference w).
Proof.
  rewrite generateResponse_split.
  destruct (window_runs u p s) as (s1 & c & Hw & _ & _).
  rewrite (bind_ok _ _ _ _ _ _ Hw), complete_spec. simpl. eauto.
Qed.

Lemma quiet_generateResponse env w u p : quiet (generateResponse env w u p).
Proof.
  intros s. split; [apply generateResponse_timers|].
  destruct (generateResponse_trace env w u p s) as [snapshot ->].
  simpl. by rewrite armed_typing, cleared_typing.
Qed.

#[local] Hint Resolve quiet_ret quiet_throw quiet_bind quiet_try_catch
  quiet_await_reply quiet_reply_each quiet_deliver quiet_generateResponse : core.

(** The body of the [try] statement of the text handler, with its [catch]. *)
Lemma quiet_try_block env w u msg :
  quiet (try_catch
           (let* response := generateResponse env w u msg in deliver w response)
           (λ error, await_reply w Apology (apology (errorMsg error)))).
Proof. auto. Qed.

(** ** The text handler *)

Lemma on_text_unsent env w u msg s e :
  w_typing_first w = Rejected e →
  on_text env w u msg s = Outcome s [ETyping (Rejected e)] (Throw e).
Proof. intros Hw. unfold on_text, sendChatAction. rewrite Hw. reflexivity. Qed.

Lemma on_text_armed env w u msg s :
  w_typing_first w = Delivered →
  on_text env w u msg s
  = prepend [ETyping Delivered; ESetInterval (length (timers s)) 5000]
      (try_finally
         (try_catch
            (let* response := generateResponse env w u msg in deliver w response)
            (λ error, await_reply w Apology (apology (errorMsg error))))
         (clearInterval (length (timers s)))
         (armed_state s)).
Proof.
  intros Hw. unfold on_text, sendChatAction. rewrite Hw.
  rewrite bind_assoc. run.
  rewrite (bind_ok _ _ s s [] tt) by reflexivity. rewrite prepend_nil.
  rewrite (bind_ok _ _ _ (armed_state s) [ESetInterval (length (timers s)) 5000]
             (length (timers s))) by reflexivity.
  by rewrite prepend_prepend.
Qed.

Lemma disarm s s' :
  timers s' = timers s ++ [true] →
  after (clearInterval (length (timers s)) s') = disarmed_state s s'.
Proof.
  intros Ht. unfold disarmed_state. simpl. rewrite Ht. f_equal.
  rewrite insert_app_r_alt by lia. by rewrite Nat.sub_diag.
Qed.

Lemma on_text_failed env w u msg s e :
  w_typing_first w = Delivered → verdict w = Throw e →
  let g := generateResponse env w u msg (armed_state s) in
  on_text env w u msg s
  = Outcome (disarmed_state s (after g))
      ([ETyping Delivered; ESetInterval (length (timers s)) 5000]
         ++ trace g
         ++ (ETyping <$> w_ticks_reply w Apology)
         ++ [EReply (apology (errorMsg e)) (w_reply w Apology);
             EClearInterval (length (timers s))])
      (match w_reply w Apology with
       | Delivered => Ok tt
       | Rejected e' => Throw e'
       end).
Proof.
  intros Hw Hv g. rewrite on_text_armed by done.
  assert (generateResponse env w u msg (armed_state s)
          = Outcome (after g) (trace g) (Throw e)) as Hg.
  { rewrite <- Hv, <- (generateResponse_result env w u msg (armed_state s)).
    apply outcome_eta. }
  assert (timers (after g) = timers s ++ [true]) as Ht
    by apply generateResponse_timers.
  erewrite try_finally_eq; last first.
  { erewrite try_catch_throw; last by erewrite bind_throw.
    rewrite await_reply_spec. reflexivity. }
  rewrite <- (disarm s (after g) Ht).
  destruct (w_reply w Apology); simpl; by rewrite <- !app_assoc.
Qed.

Lemma await_reply_delivered w site text s :
  w_reply w site = Delivered →
  await_reply w site text s
  = Outcome s ((ETyping <$> w_ticks_reply w site) ++ [EReply text Delivered])
      (Ok tt).
Proof. intros Hr. by rewrite await_reply_spec, Hr. Qed.

Lemma reply_each_delivered w chunks : ∀ i s,
  (∀ j, (j < length chunks)%nat → w_reply w (Chunk (i + j)) = Delivered) →
  ∃ tr, reply_each w i chunks s = Outcome s tr (Ok tt)
        ∧ replies tr = chunks ∧ delivered tr = chunks
        ∧ fetches tr = [].
Proof.
  induction chunks as [|c chunks IH]; intros i s Hall; simpl.
  - by exists [].
  - destruct (IH (S i) s) as (tr & Heq & Hr & Hd & Hf).
    { intros j Hj. replace (S i + j)%nat with (i + S j)%nat by lia.
      apply Hall. simpl. lia. }
    pose proof (Hall 0%nat ltac:(simpl; lia)) as H0. rewrite Nat.add_0_r in H0.
    eexists.
    rewrite (bind_ok _ _ _ _ _ _ (await_reply_delivered _ _ _ _ H0)), Heq.
    simpl. split; [reflexivity|].
    autorewrite with traces. simpl. by rewrite Hr, Hd, Hf.
Qed.

Lemma deliver_plan w response s :
  deliver w response s = reply_each w 0 (delivery_plan response) s.
Proof.
  unfold deliver, delivery_plan.
  destruct (4000 <? str_length response); [done|].
  simpl. unfold bind. by destruct (await_reply _ _ _ _) as [s' tr [[]|e]];
    simpl; rewrite ?app_nil_r.
Qed.

Lemma on_text_delivered env w u msg s text :
  w_typing_first w = Delivered → verdict w = Ok text →
  (∀ j, (j < length (delivery_plan text))%nat → w_reply w (Chunk j) = Delivered) →
  let g := generateResponse env w u msg (armed_state s) in
  ∃ tr, on_text env w u msg s = Outcome (disarmed_state s (after g)) tr (Ok tt)
        ∧ replies tr = delivery_plan text
        ∧ delivered tr = delivery_plan text
        ∧ fetches tr = fetches (trace g).
Proof.
  intros Hw Hv Hall g. rewrite on_text_armed by done.
  assert (generateResponse env w u msg (armed_state s)
          = Outcome (after g) (trace g) (Ok text)) as Hg.
  { rewrite <- Hv, <- (generateResponse_result env w u msg (armed_state s)).
    apply outcome_eta. }
  assert (timers (after g) = timers s ++ [true]) as Ht
    by apply generateResponse_timers.
  destruct (reply_each_delivered w (delivery_plan text) 0%nat (after g) Hall)
    as (tr & Heq & Hr & Hd & Hf).
  rewrite <- deliver_plan in Heq.
  erewrite try_finally_eq; last first.
  { erewrite try_catch_ok; [reflexivity|].
    rewrite (bind_ok _ _ _ _ _ _ Hg), Heq. reflexivity. }
  rewrite <- (disarm s (after g) Ht).
  eexists. split; [reflexivity|].
  destruct (generateResponse_trace env w u msg (armed_state s)) as [sn Hsn].
  fold g in Hsn. rewrite Hsn.
  autorewrite with traces. simpl. autorewrite with traces.
  by rewrite Hr, Hd, Hf, !app_nil_r.
Qed.

(** [bot.catch] swallows what the handler throws. *)
Lemma handle_text_returns env w u msg s :
  result (handle_text env w u msg s) = Ok tt.
Proof.
  unfold handle_text, try_catch.
  destruct (on_text env w u msg s) as [s' tr [[]|e]]; [done|].
  unfold bot_catch, swallow, try_catch, reply. run.
  by destruct (w_reply w Unexpected).
Qed.

(** ** The Map only holds references to arrays *)

Lemma reply_each_after w chunks : ∀ i s, after (reply_each w i chunks s) = s.
Proof.
  induction chunks as [|c chunks IH]; intros i s; [done|].
  simpl. unfold bind. rewrite await_reply_spec.
  destruct (w_reply w (Chunk i)); [|done].
  by rewrite after_prepend.
Qed.

Lemma on_text_after env w u msg s :
  w_typing_first w = Delivered →
  after (on_text env w u msg s)
  = disarmed_state s (after (generateResponse env w u msg (armed_state s))).
Proof.
  intros Hw. rewrite on_text_armed by done.
  rewrite after_prepend.
  rewrite <- (disarm s _ (generateResponse_timers env w u msg (armed_state s))).
  unfold try_finally, try_catch, bind.
  destruct (generateResponse env w u msg (armed_state s)) as [s1 t1 [text|e]];
    cbn [after].
  - rewrite deliver_plan.
    pose proof (reply_each_after w (delivery_plan text) 0 s1) as Hs.
    destruct (reply_each w 0 (delivery_plan text) s1) as [s2 t2 [[]|e]];
      cbn [after prepend] in *; subst s2; [done|].
    rewrite await_reply_spec. done.
  - rewrite await_reply_spec. done.
Qed.

Lemma handle_text_after env w u msg s :
  after (handle_text env w u msg s) = after (on_text env w u msg s).
Proof.
  unfold handle_text, try_catch.
  destruct (on_text env w u msg s) as [s' tr [[]|e]]; [done|].
  unfold bot_catch, swallow, try_catch, reply, bind, emit.
  by destruct (w_reply w Unexpected).
Qed.

Lemma on_text_store_ok env w u msg s :
  store_ok s → store_ok (after (on_text env w u msg s)).
Proof.
  intros Hok. destruct (w_typing_first w) as [|e] eqn:Hw.
  - rewrite on_text_after by done.
    apply (generateResponse_store_ok env w u msg (armed_state s)), Hok.
  - by rewrite (on_text_unsent _ _ _ _ _ _ Hw).
Qed.

Lemma on_clear_store_ok w u s : store_ok s → store_ok (after (on_clear w u s)).
Proof.
  intros Hok v a. unfold on_clear, floating, reply, bind, emit.
  destruct (w_reply w Confirmation); simpl;
    intros [_ Hv]%lookup_delete_Some; by apply (Hok v).
Qed.

Lemma reachable_store_ok env s : reachable env s → store_ok s.
Proof.
  induction 1 as [|w u msg s _ IH|w u s _ IH].
  - apply store_ok_initial.
  - rewrite handle_text_after. by apply on_text_store_ok.
  - by apply on_clear_store_ok.
Qed.

(** ** Claims about Response Delivery *)

Lemma CHUNK_pos : (0 < CHUNK)%nat.
Proof. unfold CHUNK. lia. Qed.

Lemma CHUNK_val : Z.of_nat CHUNK = 4000.
Proof. reflexivity. Qed.

Lemma delivery_plan_long response :
  4000 < str_length response →
  delivery_plan response = match_all CHUNK response.
Proof.
  intros Hlen. unfold delivery_plan, js_match.
  destruct (Z.ltb_spec 4000 (str_length response)); [|lia].
  destruct (match_all CHUNK response) eqn:E; [|done].
  destruct response; [done|].
  by apply (match_all_nonempty CHUNK CHUNK_pos) in E.
Qed.

Lemma delivery_plan_short response :
  str_length response ≤ 4000 → delivery_plan response = [response].
Proof.
  intros Hlen. unfold delivery_plan.
  by destruct (Z.ltb_spec 4000 (str_length response)); [lia|].
Qed.

Lemma delivery_plan_concat response : concat (delivery_plan response) = response.
Proof.
  destruct (Z.lt_ge_cases 4000 (str_length response)) as [Hlen|Hlen].
  - rewrite delivery_plan_long by done. apply match_all_concat, CHUNK_pos.
  - rewrite delivery_plan_short by done. apply app_nil_r.
Qed.

Lemma delivery_plan_bounded response :
  Forall (λ c, str_length c ≤ 4000) (delivery_plan response).
Proof.
  destruct (Z.lt_ge_cases 4000 (str_length response)) as [Hlen|Hlen].
  - rewrite delivery_plan_long by done.
    eapply Forall_impl; [apply (match_all_bounded CHUNK CHUNK_pos)|].
    intros c Hc. unfold str_length. pose proof CHUNK_val. simpl in Hc. lia.
  - rewrite delivery_plan_short by done. by repeat constructor.
Qed.

Lemma delivery_plan_9000 response :
  str_length response = 9000 →
  ∃ c1 c2 c3, delivery_plan response = [c1; c2; c3]
              ∧ str_length c1 = 4000 ∧ str_length c2 = 4000
              ∧ str_length c3 = 1000.
Proof.
  intros Hlen. rewrite delivery_plan_long by lia.
  pose proof CHUNK_val as Hc. unfold str_length in *.
  assert (∀ l : jsstring, (0 < length l)%nat → l ≠ []) as Hne
    by (intros [|] ?; simpl in *; [lia|done]).
  rewrite (match_all_step CHUNK CHUNK_pos response) by (apply Hne; lia).
  rewrite (match_all_step CHUNK CHUNK_pos (drop CHUNK response))
    by (apply Hne; rewrite length_drop; lia).
  rewrite (match_all_step CHUNK CHUNK_pos (drop CHUNK (drop CHUNK response)))
    by (apply Hne; rewrite !length_drop; lia).
  assert (drop CHUNK (drop CHUNK (drop CHUNK response)) = []) as ->
    by (apply drop_ge; rewrite !length_drop; lia).
  rewrite match_all_nil.
  eexists _, _, _. split; [reflexivity|].
  rewrite !length_take, !length_drop. lia.
Qed.

Lemma verdict_answered w t st text :
  w_endpoint w = Answers t st (Content text) →
  t < 120000 → (200 ≤ st ≤ 299)%N →
  verdict w = Ok text.
Proof.
  intros Hep Ht Hst. unfold verdict, ok. rewrite Hep. simpl.
  destruct (Z.ltb_spec t 120000); [|lia].
  destruct (N.leb_spec 200 st); [|lia].
  destruct (N.leb_spec st 299); [|lia]. done.
Qed.

(** C2: the texts that Response Delivery sends are a lossless,
    order-preserving partition of the reply.  Their concatenation is the
    reply; none is longer than 4000 code units; a reply of at most 4000
    code units is sent as one message; a reply of 9000 code units is sent
    as three messages of 4000, 4000 and 1000 code units.  When the
    endpoint answers and the channel accepts every send, the handler
    sends exactly these texts, in this order. *)
Theorem C2_delivery_is_lossless_partition (response : jsstring) :
  concat (delivery_plan response) = response
  ∧ Forall (λ c, str_length c ≤ 4000) (delivery_plan response)
  ∧ (str_length response ≤ 4000 → delivery_plan response = [response])
  ∧ (str_length response = 9000 →
     ∃ c1 c2 c3, delivery_plan response = [c1; c2; c3]
                 ∧ str_length c1 = 4000 ∧ str_length c2 = 4000
                 ∧ str_length c3 = 1000)
  ∧ (∀ env w u msg s t st,
       w_typing_first w = Delivered →
       w_endpoint w = Answers t st (Content response) →
       t < 120000 → (200 ≤ st ≤ 299)%N →
       (∀ j, w_reply w (Chunk j) = Delivered) →
       let o := on_text env w u msg s in
       result o = Ok tt
       ∧ replies (trace o) = delivery_plan response
       ∧ delivered (trace o) = delivery_plan response).
Proof.
  split; [apply delivery_plan_concat|].
  split; [apply delivery_plan_bounded|].
  split; [apply delivery_plan_short|].
  split; [apply delivery_plan_9000|].
  intros env w u msg s t st Hw Hep Ht Hst Hall o.
  destruct (on_text_delivered env w u msg s response Hw
              (verdict_answered _ _ _ _ Hep Ht Hst) (λ j _, Hall j))
    as (tr & Heq & Hr & Hd & _).
  subst o. by rewrite Heq.
Qed.

Lemma C2_witness :
  delivery_plan (lit "hi there") = [lit "hi there"]
  ∧ (∃ c1 c2 c3, delivery_plan long_reply = [c1; c2; c3]
                 ∧ str_length c1 = 4000 ∧ str_length c2 = 4000
                 ∧ str_length c3 = 1000)
  ∧ replies (trace (on_text default_env (obliging long_reply) 7 (lit "hello") initial))
    = delivery_plan long_reply.
Proof.
  split.
  { apply (C2_delivery_is_lossless_partition (lit "hi there")).
    vm_compute. discriminate. }
  split.
  { apply (C2_delivery_is_lossless_partition long_reply). reflexivity. }
  apply (C2_delivery_is_lossless_partition long_reply)
    with (t := 1500) (st := 200%N); try reflexivity.
  split; vm_compute; discriminate.
Defined.

(** ** Claims about the Liveness Signaler *)

(** C3: the handler clears exactly the intervals that it arms, and it
    arms at most one.  Whenever an inference call was made, and whenever
    the first typing signal went through, the handler has armed one
    interval, cleared it exactly once and left it disarmed, whatever the
    endpoint and the channel did (answer, error status, timeout, refused
    connection, rejected sends).  When the first typing signal is rejected,
    the handler ends before arming anything. *)
Theorem C3_signaler_disarmed_exactly_once env w u msg s :
  let o := on_text env w u msg s in
  let id := length (timers s) in
  cleared (trace o) = armed (trace o)
  ∧ (fetches (trace o) ≠ [] →
       cleared (trace o) = [id] ∧ timers (after o) = timers s ++ [false])
  ∧ (w_typing_first w = Delivered →
       armed (trace o) = [id] ∧ cleared (trace o) = [id]
       ∧ timers (after o) = timers s ++ [false])
  ∧ (∀ e, w_typing_first w = Rejected e →
       armed (trace o) = [] ∧ cleared (trace o) = []
       ∧ timers (after o) = timers s).
Proof.
  cbv zeta.
  assert (w_typing_first w = Delivered →
          armed (trace (on_text env w u msg s)) = [length (timers s)]
          ∧ cleared (trace (on_text env w u msg s)) = [length (timers s)]
          ∧ timers (after (on_text env w u msg s)) = timers s ++ [false])
    as Harmed.
  { intros Hw. rewrite on_text_armed by done.
    unfold try_finally.
    pose proof (quiet_try_block env w u msg (armed_state s)) as (Ht & Ha & Hc).
    destruct (try_catch _ _ (armed_state s)) as [s1 tr r]. simpl in Ht, Ha, Hc.
    simpl. rewrite armed_app, cleared_app, Ha, Hc, Ht. simpl.
    rewrite insert_app_r_alt by lia. by rewrite Nat.sub_diag. }
  destruct (w_typing_first w) as [|e] eqn:Hw.
  - destruct (Harmed eq_refl) as (Ha & Hc & Ht).
    rewrite Ha, Hc, Ht. repeat split; done.
  - rewrite (on_text_unsent _ _ _ _ _ _ Hw). simpl.
    repeat split; done.
Qed.

Lemma C3_witness :
  let o := on_text default_env refusing 7 (lit "hello") initial in
  cleared (trace o) = [0%nat] ∧ timers (after o) = [false].
Proof.
  pose proof (C3_signaler_disarmed_exactly_once default_env refusing 7
                (lit "hello") initial) as (_ & Hcall & Harmed & _).
  destruct (Harmed eq_refl) as (_ & Hc & Ht).
  split; [|exact Ht].
  apply Hcall. vm_compute. discriminate.
Defined.

(** The periodic signal of line 87 never throws: its rejection is
    swallowed and the state is untouched. *)
Lemma periodic_signal_swallowed ticks s :
  after (fire ticks s) = s ∧ result (fire ticks s) = Ok tt.
Proof. by rewrite fire_spec. Qed.

Lemma without_typing_app tr1 tr2 :
  without_typing (tr1 ++ tr2) = without_typing tr1 ++ without_typing tr2.
Proof. apply omap_app. Qed.

Lemma without_typing_ticks ticks : without_typing (ETyping <$> ticks) = [].
Proof. by apply omap_typing. Qed.

Lemma without_typing_fetch req tr :
  without_typing (EFetch req :: tr) = EFetch req :: without_typing tr.
Proof. reflexivity. Qed.

Lemma agree_refl {A} (o : outcome A) : agree o o.
Proof. by repeat split. Qed.

Lemma agree_prepend {A} tr tr' (o o' : outcome A) :
  without_typing tr = without_typing tr' → agree o o' →
  agree (prepend tr o) (prepend tr' o').
Proof.
  intros Htr (Ha & Hr & Ht). destruct o, o'.
  unfold agree. cbn [prepend after trace result] in *.
  repeat split; try done. by rewrite !without_typing_app, Htr, Ht.
Qed.

Lemma agree_bind {A B} (m m' : M A) (k k' : A → M B) s :
  agree (m s) (m' s) → (∀ a s1, agree (k a s1) (k' a s1)) →
  agree (bind m k s) (bind m' k' s).
Proof.
  intros (Ha & Hr & Ht) Hk. unfold bind.
  destruct (m s) as [s1 t1 r1], (m' s) as [s1' t1' r1'].
  cbn [after trace result] in *. subst.
  destruct r1' as [a|e]; [by apply agree_prepend|by repeat split].
Qed.

Lemma agree_try_catch {A} (m m' : M A) h h' s :
  agree (m s) (m' s) → (∀ e s1, agree (h e s1) (h' e s1)) →
  agree (try_catch m h s) (try_catch m' h' s).
Proof.
  intros (Ha & Hr & Ht) Hh. unfold try_catch.
  destruct (m s) as [s1 t1 r1], (m' s) as [s1' t1' r1'].
  cbn [after trace result] in *. subst.
  destruct r1' as [a|e]; [by repeat split|by apply agree_prepend].
Qed.

Lemma agree_try_finally {A} (m m' : M A) f s :
  agree (m s) (m' s) → agree (try_finally m f s) (try_finally m' f s).
Proof.
  intros (Ha & Hr & Ht). unfold try_finally.
  destruct (m s) as [s1 t1 r1], (m' s) as [s1' t1' r1'].
  cbn [after trace result] in *. subst.
  apply agree_prepend; [done|apply agree_refl].
Qed.

Lemma agree_await_reply w w' site text s :
  same_but_ticks w w' →
  agree (await_reply w site text s) (await_reply w' site text s).
Proof.
  intros (_ & _ & Hr). rewrite !await_reply_spec, Hr.
  repeat split. cbn [trace].
  by rewrite !without_typing_app, !without_typing_ticks.
Qed.

Lemma agree_reply_each w w' chunks : ∀ i s,
  same_but_ticks w w' →
  agree (reply_each w i chunks s) (reply_each w' i chunks s).
Proof.
  induction chunks as [|c chunks IH]; intros i s Hw; simpl.
  - apply agree_refl.
  - apply agree_bind; [by apply agree_await_reply|]. intros _ s1. by apply IH.
Qed.

Lemma agree_generateResponse env w w' u p s :
  same_but_ticks w w' →
  agree (generateResponse env w u p s) (generateResponse env w' u p s).
Proof.
  intros (_ & Hep & _). rewrite !generateResponse_split.
  destruct (window_runs u p s) as (s1 & c & Hwin & _ & _).
  rewrite !(bind_ok _ _ _ _ _ _ Hwin), !complete_spec.
  assert (verdict w = verdict w') as <- by (unfold verdict; by rewrite Hep).
  repeat split. cbn [trace prepend app].
  by rewrite !without_typing_fetch, !without_typing_ticks.
Qed.

(** The periodic signals, however many fire and however each of them
    settles, change nothing in what the handler does besides the typing
    signals themselves: same state, same result, same other calls. *)
Lemma periodic_signals_do_not_matter env w w' u msg s :
  same_but_ticks w w' →
  agree (on_text env w u msg s) (on_text env w' u msg s).
Proof.
  intros Hsame. pose proof Hsame as (Hfirst & _ & _).
  destruct (w_typing_first w') as [|e] eqn:Hw'.
  - rewrite !on_text_armed by done.
    apply agree_prepend; [done|].
    apply agree_try_finally, agree_try_catch.
    + apply agree_bind; [by apply agree_generateResponse|].
      intros text s1. rewrite !deliver_plan. by apply agree_reply_each.
    + intros e s1. by apply agree_await_reply.
  - rewrite (on_text_unsent _ _ _ _ _ _ Hfirst), (on_text_unsent _ _ _ _ _ _ Hw').
    apply agree_refl.
Qed.

(** C8, at the failing input: when the first typing signal (line 83) is
    rejected, the handler throws that rejection at once: no request goes
    to the endpoint, nothing is sent to the user by the handler, the state
    is untouched; the user only gets the generic text of [bot.catch]. *)
Theorem C8_first_signal_failure_aborts env e ep ticks rs ticks' u msg s :
  let w := World (Rejected e) ep ticks rs ticks' in
  on_text env w u msg s = Outcome s [ETyping (Rejected e)] (Throw e)
  ∧ fetches (trace (handle_text env w u msg s)) = []
  ∧ replies (trace (handle_text env w u msg s)) = [unexpected_text]
  ∧ after (handle_text env w u msg s) = s.
Proof.
  cbv zeta. split; [by apply on_text_unsent|].
  unfold handle_text.
  erewrite try_catch_throw by (by apply on_text_unsent).
  unfold bot_catch, swallow, reply. simpl w_reply.
  destruct (rs Unexpected); simpl; done.
Qed.

(** ** Claims about the exchange with the endpoint *)

Lemma includes_middle (before needle rest : jsstring) :
  includes needle (before ++ needle ++ rest).
Proof. by exists before, rest. Qed.

Lemma apology_includes msg : includes msg (apology msg).
Proof. unfold apology. rewrite app_assoc. apply includes_middle. Qed.

Lemma includes_app_r (needle before hay : jsstring) :
  includes needle hay → includes needle (before ++ hay).
Proof.
  intros (b & r & ->). exists (before ++ b), r. by rewrite app_assoc.
Qed.

Lemma includes_trans (a b c : jsstring) :
  includes a b → includes b c → includes a c.
Proof.
  intros (b1 & r1 & ->) (b2 & r2 & ->).
  exists (b2 ++ b1), (r1 ++ r2). by rewrite <- !app_assoc.
Qed.

Lemma history_armed s u : history (armed_state s) u = history s u.
Proof. reflexivity. Qed.

Lemma history_disarmed s s' u : history (disarmed_state s s') u = history s' u.
Proof. reflexivity. Qed.

Lemma store_ok_armed s : store_ok s → store_ok (armed_state s).
Proof. intros H. exact H. Qed.



(** C5: the endpoint does not answer within 120000 ms.  The call throws
    the platform's [TimeoutError]; the handler makes no other reply than
    one apology that says that the response took too long and asks for a
    shorter message; it returns normally when the channel accepts that
    apology, and in any case the framework's handler does not throw. *)
Theorem C5_timeout_is_reported env w u msg s :
  w_typing_first w = Delivered →
  no_answer_within 120000 (w_endpoint w) = true →
  let o := on_text env w u msg s in
  (∀ s0, result (generateResponse env w u msg s0) = Throw timeout_error)
  ∧ name timeout_error = lit "TimeoutError"
  ∧ timeout_ms <$> fetches (trace o) = [120000]
  ∧ replies (trace o) = [apology too_long_text]
  ∧ includes (lit "took too long") (apology too_long_text)
  ∧ includes (lit "Please try a shorter message") (apology too_long_text)
  ∧ (w_reply w Apology = Delivered →
       result o = Ok tt ∧ delivered (trace o) = [apology too_long_text])
  ∧ result (handle_text env w u msg s) = Ok tt.
Proof.
  intros Hw Hep o.
  assert (verdict w = Throw timeout_error) as Hv.
  { unfold verdict. destruct (w_endpoint w) as [| |t st b|e]; try done.
    simpl in Hep. destruct (Z.ltb_spec 120000 t); [|done].
    by destruct (Z.ltb_spec t 120000); [lia|]. }
  split; [by intros s0; rewrite generateResponse_result|].
  split; [done|].
  subst o. rewrite (on_text_failed _ _ _ _ _ _ Hw Hv).
  destruct (generateResponse_trace env w u msg (armed_state s)) as [sn Hsn].
  simpl. rewrite Hsn. simpl.
  autorewrite with traces. simpl.
  split; [done|].
  split; [done|].
  split.
  { eapply includes_trans; [|apply apology_includes].
    by exists (lit "Response "), (lit ". Please try a shorter message."). }
  split.
  { eapply includes_trans; [|apply apology_includes].
    by exists (lit "Response took too long. "), (lit "."). }
  split; [|apply handle_text_returns].
  intros ->. simpl. by autorewrite with traces.
Qed.

Lemma C5_witness :
  let o := on_text default_env silent 7 (lit "hello") initial in
  replies (trace o) = [apology too_long_text] ∧ result o = Ok tt.
Proof.
  pose proof (C5_timeout_is_reported default_env silent 7 (lit "hello") initial
                eq_refl eq_refl) as (_ & _ & _ & Hr & _ & _ & Hd & _).
  split; [exact Hr|]. apply Hd. reflexivity.
Defined.

Lemma errorMsg_refused e :
  cause_code e = Some (lit "ECONNREFUSED") → name e ≠ lit "TimeoutError" →
  errorMsg e = unavailable_text.
Proof.
  intros Hc Hn. unfold errorMsg.
  rewrite (bool_decide_eq_true_2 _ Hc), (bool_decide_eq_false_2 _ Hn). done.
Qed.

(** C6: the endpoint refuses the connection.  The call throws the
    platform's error, whose cause has the code ECONNREFUSED; the handler
    classifies it as "service not available" and makes no other reply than
    one apology that says so; it returns normally when the channel accepts
    that apology.  The classification holds for every error with that
    cause code that is not named TimeoutError. *)
Theorem C6_refused_connection_is_reported env w u msg s :
  w_typing_first w = Delivered →
  w_endpoint w = Refuses →
  let o := on_text env w u msg s in
  (∀ s0, result (generateResponse env w u msg s0) = Throw connection_refused)
  ∧ cause_code connection_refused = Some (lit "ECONNREFUSED")
  ∧ errorMsg connection_refused = unavailable_text
  ∧ replies (trace o) = [apology unavailable_text]
  ∧ includes (lit "service is not available") (apology unavailable_text)
  ∧ (w_reply w Apology = Delivered →
       result o = Ok tt ∧ delivered (trace o) = [apology unavailable_text])
  ∧ (∀ e, cause_code e = Some (lit "ECONNREFUSED") →
          name e ≠ lit "TimeoutError" → errorMsg e = unavailable_text).
Proof.
  intros Hw Hep o.
  assert (verdict w = Throw connection_refused) as Hv
    by (unfold verdict; by rewrite Hep).
  split; [by intros s0; rewrite generateResponse_result|].
  split; [done|]. split; [done|].
  subst o. rewrite (on_text_failed _ _ _ _ _ _ Hw Hv).
  destruct (generateResponse_trace env w u msg (armed_state s)) as [sn Hsn].
  simpl. rewrite Hsn. simpl.
  autorewrite with traces. simpl.
  split; [done|].
  split.
  { eapply includes_trans; [|apply apology_includes].
    by exists (lit "Ollama "), (lit ". Please try again later."). }
  split; [|apply errorMsg_refused].
  intros ->. simpl. by autorewrite with traces.
Qed.

Lemma C6_witness :
  replies (trace (on_text default_env refusing 7 (lit "hello") initial))
  = [apology unavailable_text].
Proof.
  apply (C6_refused_connection_is_reported default_env refusing 7 (lit "hello")
           initial eq_refl eq_refl).
Defined.

Lemma errorMsg_Error msg : errorMsg (Error msg) = msg.
Proof. reflexivity. Qed.

Lemma ok_false st b : (st < 200 ∨ 299 < st)%N → ok (Response st b) = false.
Proof.
  intros Hst. unfold ok. simpl.
  destruct (N.leb_spec 200 st); [|done].
  destruct (N.leb_spec st 299); [lia|done].
Qed.

(** C7: the endpoint answers in time with a status outside 200-299.  The
    call throws an error whose message carries the status in decimal, so
    no text is returned; the handler's only reply is the apology with that
    message; nothing but the user turn has been added to what is stored
    for the user, and the Map itself is unchanged. *)
Theorem C7_error_status_is_surfaced env w u msg s t st b :
  store_ok s →
  w_typing_first w = Delivered →
  w_endpoint w = Answers t st b →
  t < 120000 → (st < 200 ∨ 299 < st)%N →
  let o := on_text env w u msg s in
  (∀ s0, result (generateResponse env w u msg s0) = Throw (Error (status_text st)))
  ∧ replies (trace o) = [apology (status_text st)]
  ∧ includes (number_to_string st) (apology (status_text st))
  ∧ userContexts (after o) = userContexts s
  ∧ history (after o) u
    = match userContexts s !! u with
      | Some _ => history s u ++ [Turn user msg]
      | None => []
      end
  ∧ filter (λ x, turn_role x = assistant) (history (after o) u)
    = filter (λ x, turn_role x = assistant) (history s u).
Proof.
  intros Hok Hw Hep Ht Hst o.
  assert (verdict w = Throw (Error (status_text st))) as Hv.
  { unfold verdict. rewrite Hep.
    destruct (Z.ltb_spec t 120000); [|lia]. by rewrite ok_false. }
  split; [by intros s0; rewrite generateResponse_result|].
  subst o. rewrite (on_text_failed _ _ _ _ _ _ Hw Hv).
  destruct (generateResponse_trace env w u msg (armed_state s)) as [sn Hsn].
  simpl after. simpl trace. rewrite Hsn.
  autorewrite with traces. simpl replies. autorewrite with traces.
  rewrite errorMsg_Error.
  split; [done|].
  split.
  { eapply includes_trans; [|apply apology_includes].
    exists (lit "Ollama error: "), []. by rewrite app_nil_r. }
  pose proof (generateResponse_history env w u msg (armed_state s)
                (store_ok_armed s Hok)) as [_ Hh].
  cbv zeta in Hh. rewrite Hv, history_armed in Hh.
  rewrite history_disarmed, Hh.
  split; [apply (generateResponse_throw_map env w u msg (armed_state s) _ Hv)|].
  split; [done|].
  simpl userContexts. destruct (userContexts s !! u) eqn:Hu.
  - rewrite filter_app. simpl. rewrite filter_cons_False by done.
    by rewrite filter_nil, app_nil_r.
  - by rewrite (history_absent _ _ Hu).
Qed.

Lemma C7_witness :
  replies (trace (on_text default_env not_found 7 (lit "hello") initial))
  = [apology (lit "Ollama error: 404")].
Proof.
  apply (C7_error_status_is_surfaced default_env not_found 7 (lit "hello")
           initial 40 404%N (Malformed (Error (lit "Unexpected token")))).
  - exact store_ok_initial.
  - reflexivity.
  - reflexivity.
  - vm_compute. reflexivity.
  - right. vm_compute. reflexivity.
Defined.

(** ** Claims about the Context Store *)

Lemma on_clear_spec w u s :
  on_clear w u s
  = Outcome (State (heap s) (delete u (userContexts s)) (timers s))
      [EReply cleared_text (w_reply w Confirmation)]
      (Ok match w_reply w Confirmation with
          | Delivered => None
          | Rejected e => Some e
          end).
Proof.
  unfold on_clear, floating, reply, bind, emit.
  by destruct (w_reply w Confirmation).
Qed.



Lemma is_throw_verdict env w u p s :
  is_throw (result (generateResponse env w u p s)) = true →
  ∃ e, verdict w = Throw e.
Proof.
  rewrite generateResponse_result. destruct (verdict w); [done|eauto].
Qed.

Lemma failed_call_state env w u p s :
  store_ok s →
  is_throw (result (generateResponse env w u p s)) = true →
  let s' := after (generateResponse env w u p s) in
  userContexts s' = userContexts s
  ∧ history s' u
    = match userContexts s !! u with
      | Some _ => history s u ++ [Turn user p]
      | None => []
      end.
Proof.
  intros Hok Hthrow. destruct (is_throw_verdict _ _ _ _ _ Hthrow) as [e Hv].
  split; [by apply (generateResponse_throw_map _ _ _ _ _ _ Hv)|].
  destruct (generateResponse_history env w u p s Hok) as [_ Hh].
  by rewrite Hv in Hh.
Qed.

Lemma failed_calls_accumulate env u calls : ∀ s,
  store_ok s → is_Some (userContexts s !! u) →
  forallb is_throw (answers env u calls s) = true →
  history (exchanges env u calls s) u
  = history s u ++ ((λ c, Turn user c.2) <$> calls).
Proof.
  induction calls as [|[w p] calls IH]; intros s Hok [a Ha] Hall; simpl.
  - by rewrite app_nil_r.
  - simpl in Hall. apply andb_prop in Hall as [Hthrow Hall].
    destruct (failed_call_state env w u p s Hok Hthrow) as [Hm Hh].
    rewrite IH.
    + rewrite Hh, Ha. by rewrite <- app_assoc.
    + by apply generateResponse_store_ok.
    + rewrite Hm. eauto.
    + done.
Qed.

(** C10: what a failed call leaves behind.  The Map is unchanged.  For a
    user without an entry there is still none, so his history reads empty.
    For a user with an entry the very array that the Map holds has got the
    new user turn, and nothing was trimmed.  Hence a run of failed calls
    adds one turn per call, and the stored history of a user with an entry
    grows past any bound. *)
Theorem C10_failed_calls_grow_history env u :
  (∀ w p s, store_ok s →
     is_throw (result (generateResponse env w u p s)) = true →
     let s' := after (generateResponse env w u p s) in
     userContexts s' = userContexts s
     ∧ (userContexts s !! u = None →
          userContexts s' !! u = None ∧ history s' u = [])
     ∧ (∀ a h, userContexts s !! u = Some a → heap s !! a = Some h →
          userContexts s' !! u = Some a
          ∧ heap s' !! a = Some (h ++ [Turn user p])))
  ∧ (∀ calls s, store_ok s → is_Some (userContexts s !! u) →
       forallb is_throw (answers env u calls s) = true →
       history (exchanges env u calls s) u
       = history s u ++ ((λ c, Turn user c.2) <$> calls)
       ∧ length (history (exchanges env u calls s) u)
         = (length (history s u) + length calls)%nat)
  ∧ (∀ w p s bound, store_ok s → is_Some (userContexts s !! u) →
       forallb is_throw (answers env u (replicate (S bound) (w, p)) s) = true →
       (bound < length (history (exchanges env u (replicate (S bound) (w, p)) s) u))%nat).
Proof.
  split; [|split].
  - intros w p s Hok Hthrow s'.
    destruct (failed_call_state env w u p s Hok Hthrow) as [Hm Hh].
    fold s' in Hm, Hh. split; [done|]. split.
    + intros Hu. rewrite Hu in Hh. by rewrite Hm.
    + intros a h Hu Ha. rewrite Hm. split; [done|].
      rewrite Hu, (history_at _ _ _ _ Hu Ha) in Hh.
      unfold history in Hh. rewrite Hm, Hu in Hh.
      destruct (heap s' !! a) as [l|]; simpl in Hh; [by rewrite Hh|].
      by destruct h.
  - intros calls s Hok Hsome Hall.
    rewrite (failed_calls_accumulate env u calls s Hok Hsome Hall).
    split; [done|]. by rewrite length_app, length_fmap.
  - intros w p s bound Hok Hsome Hall.
    rewrite (failed_calls_accumulate env u _ s Hok Hsome Hall).
    rewrite length_app, length_fmap, length_replicate. lia.
Qed.

Lemma seeded_ok : store_ok seeded.
Proof. apply generateResponse_store_ok, store_ok_initial. Qed.

Lemma C10_witness :
  length (history (exchanges default_env 7 (replicate 12 (refusing, lit "again")) seeded) 7)
  = 14%nat.
Proof.
  pose proof (C10_failed_calls_grow_history default_env 7) as (_ & Hrun & _).
  destruct (Hrun (replicate 12 (refusing, lit "again")) seeded) as [_ Hlen].
  - exact seeded_ok.
  - eexists. vm_compute. reflexivity.
  - vm_compute. reflexivity.
  - exact Hlen.
Defined.

(** After a call that returned, the stored history is the trimmed context
    and the answer: one turn more than the cap of line 49 allows. *)
Lemma returned_call_length env w u p s text :
  store_ok s → verdict w = Ok text →
  length (history (after (generateResponse env w u p s)) u)
  = S (S (length (history s u)) `min` 10).
Proof.
  intros Hok Hv.
  destruct (generateResponse_history env w u p s Hok) as [_ Hh].
  rewrite Hv in Hh. rewrite Hh.
  rewrite length_app, last_n_length, length_app. simpl. lia.
Qed.

Lemma stored_history_at_most_eleven env w u p s text :
  store_ok s → verdict w = Ok text →
  (length (history (after (generateResponse env w u p s)) u) ≤ 11)%nat.
Proof. intros Hok Hv. rewrite (returned_call_length _ _ _ _ _ _ Hok Hv). lia. Qed.

(** C1, at the failing input: six exchanges that all succeed, starting
    from the empty store.  Twelve turns were appended; the history that is
    stored afterwards has eleven turns, not ten: the trimming of line 50
    runs before the assistant turn is pushed. *)
Theorem C1_six_exchanges_store_eleven_turns env :
  let s := exchanges env 7 six_calls initial in
  forallb is_ok (answers env 7 six_calls initial) = true
  ∧ length (history s 7) = 11%nat
  ∧ history s 7
    = [Turn assistant (lit "a1");
       Turn user (lit "u2"); Turn assistant (lit "a2");
       Turn user (lit "u3"); Turn assistant (lit "a3");
       Turn user (lit "u4"); Turn assistant (lit "a4");
       Turn user (lit "u5"); Turn assistant (lit "a5");
       Turn user (lit "u6"); Turn assistant (lit "a6")].
Proof. cbv zeta. by vm_compute. Qed.


(** ** More about the chunks of a long reply *)

Section ChunkPositions.
Context {A : Type}.
Variable limit : nat.
Hypothesis limit_pos : (0 < limit)%nat.

Lemma match_all_lookup (i : nat) : ∀ s : list A,
  match_all limit s !! i
  = if decide (i * limit < length s)%nat
    then Some (take limit (drop (i * limit) s)) else None.
Proof using limit_pos.
  induction i as [|i IH]; intros s.
  - destruct s as [|c s'].
    + rewrite match_all_nil. case_decide; [simpl in *; lia|done].
    + rewrite (match_all_step limit limit_pos) by done.
      rewrite decide_True by (simpl; lia). done.
  - destruct s as [|c s'].
    + rewrite match_all_nil. case_decide; [simpl in *; lia|done].
    + rewrite (match_all_step limit limit_pos) by done.
      change ((?x :: ?l) !! S i) with (l !! i).
      rewrite IH, length_drop, drop_drop.
      replace (limit + i * limit)%nat with (S i * limit)%nat by lia.
      repeat case_decide; try done; lia.
Qed.

Lemma match_all_count (s : list A) :
  s ≠ [] →
  ((length (match_all limit s) - 1) * limit < length s
   ∧ length s ≤ length (match_all limit s) * limit)%nat.
Proof using limit_pos.
  intros Hs.
  pose proof (match_all_nonempty limit limit_pos s Hs) as Hne.
  set (n := length (match_all limit s)).
  assert (0 < n)%nat as Hn.
  { subst n. destruct (match_all limit s); [done|simpl; lia]. }
  split.
  - destruct (lookup_lt_is_Some_2 (match_all limit s) (n - 1)) as [c Hc];
      [lia|].
    rewrite match_all_lookup in Hc. by case_decide.
  - pose proof (lookup_ge_None_2 (match_all limit s) n ltac:(lia)) as Hc.
    rewrite match_all_lookup in Hc. case_decide; [done|lia].
Qed.
End ChunkPositions.

Lemma delivery_plan_lookup (response : jsstring) (i : nat) :
  4000 < str_length response →
  delivery_plan response !! i
  = if decide (Z.of_nat i * 4000 < str_length response)
    then Some (take CHUNK (drop (i * CHUNK) response)) else None.
Proof.
  intros Hlen. rewrite delivery_plan_long by done.
  rewrite (match_all_lookup CHUNK CHUNK_pos).
  pose proof CHUNK_val. unfold str_length.
  repeat case_decide; try done; lia.
Qed.

(** X1: a reply of more than 4000 code units is cut at the multiples of
    4000.  The message number [i] (from 0) is the slice of the reply from
    position [4000 * i] up to, but not including, position
    [4000 * (i + 1)] (or the end of the reply); there is such a message
    exactly when position [4000 * i] is inside the reply. *)
Theorem X1_chunk_is_slice (response : jsstring) (i : nat) :
  4000 < str_length response →
  delivery_plan response !! i
  = if decide (Z.of_nat i * 4000 < str_length response)
    then Some (take CHUNK (drop (i * CHUNK) response)) else None.
Proof. apply delivery_plan_lookup. Qed.

Lemma X1_witness :
  delivery_plan long_reply !! 2%nat
  = Some (take CHUNK (drop (2 * CHUNK) long_reply))
  ∧ delivery_plan long_reply !! 3%nat = None.
Proof.
  split.
  - rewrite (X1_chunk_is_slice long_reply 2) by (vm_compute; reflexivity).
    reflexivity.
  - rewrite (X1_chunk_is_slice long_reply 3) by (vm_compute; reflexivity).
    reflexivity.
Defined.

(** X2: the number of messages of a long reply and their sizes.  For a
    reply of more than 4000 code units, the number [n] of messages is the
    least with [4000 * n] at least the length; every message but the last
    has exactly 4000 code units, and the last has between 1 and 4000. *)
Theorem X2_chunk_count_and_sizes (response : jsstring) :
  4000 < str_length response →
  let n := Z.of_nat (length (delivery_plan response)) in
  (n - 1) * 4000 < str_length response ≤ n * 4000
  ∧ (∀ i c, delivery_plan response !! i = Some c →
       (if decide (Z.of_nat i < n - 1) then str_length c = 4000
        else 1 ≤ str_length c ≤ 4000
             ∧ str_length c = str_length response - (n - 1) * 4000)).
Proof.
  intros Hlen n.
  assert (response ≠ []) as Hne by (intros ->; unfold str_length in Hlen; simpl in Hlen; lia).
  pose proof CHUNK_val as Hc.
  assert ((n - 1) * 4000 < str_length response ≤ n * 4000) as Hn.
  { subst n. rewrite delivery_plan_long by done.
    destruct (match_all_count CHUNK CHUNK_pos response Hne) as [H1 H2].
    pose proof (match_all_nonempty CHUNK CHUNK_pos response Hne) as Hm.
    unfold str_length. rewrite <- Hc.
    assert (0 < length (match_all CHUNK response))%nat as Hpos
      by (destruct (match_all CHUNK response); [done|simpl; lia]).
    set (m := length (match_all CHUNK response)) in *.
    replace (Z.of_nat m - 1) with (Z.of_nat (m - 1)) by lia.
    rewrite <- !Nat2Z.inj_mul. lia. }
  split; [done|].
  intros i c Hi.
  pose proof (lookup_lt_Some _ _ _ Hi) as Hlt. fold n in Hlt.
  rewrite delivery_plan_lookup in Hi by done.
  case_decide as Hin; [|done]. injection Hi as <-.
  unfold str_length in *. rewrite length_take, length_drop.
  rewrite <- Hc in Hn, Hin |- *.
  case_decide; nia.
Qed.

Lemma X2_witness :
  let n := Z.of_nat (length (delivery_plan long_reply)) in
  (n - 1) * 4000 < str_length long_reply ≤ n * 4000.
Proof.
  apply (X2_chunk_count_and_sizes long_reply). vm_compute. reflexivity.
Defined.

(** ** Sends that the channel rejects *)

Lemma await_reply_rejected w site text s e :
  w_reply w site = Rejected e →
  await_reply w site text s
  = Outcome s ((ETyping <$> w_ticks_reply w site) ++ [EReply text (Rejected e)])
      (Throw e).
Proof. intros Hr. by rewrite await_reply_spec, Hr. Qed.

Lemma reply_each_rejected w chunks : ∀ i s k e,
  (k < length chunks)%nat →
  (∀ j, (j < k)%nat → w_reply w (Chunk (i + j)) = Delivered) →
  w_reply w (Chunk (i + k)) = Rejected e →
  ∃ tr, reply_each w i chunks s = Outcome s tr (Throw e)
        ∧ replies tr = take (S k) chunks ∧ delivered tr = take k chunks
        ∧ fetches tr = [] ∧ armed tr = [] ∧ cleared tr = [].
Proof.
  induction chunks as [|c chunks IH]; intros i s k e Hk Hbefore Hat;
    [simpl in Hk; lia|].
  destruct k as [|k].
  - rewrite Nat.add_0_r in Hat. eexists. simpl.
    rewrite (bind_throw _ _ _ _ _ _ (await_reply_rejected _ _ _ _ _ Hat)).
    split; [reflexivity|]. autorewrite with traces. simpl.
    by rewrite take_0.
  - destruct (IH (S i) s k e) as (tr & Heq & Hr & Hd & Hf & Ha & Hc).
    { simpl in Hk. lia. }
    { intros j Hj. replace (S i + j)%nat with (i + S j)%nat by lia.
      apply Hbefore. lia. }
    { by replace (S i + k)%nat with (i + S k)%nat by lia. }
    pose proof (Hbefore 0%nat ltac:(lia)) as H0. rewrite Nat.add_0_r in H0.
    eexists. simpl.
    rewrite (bind_ok _ _ _ _ _ _ (await_reply_delivered _ _ _ _ H0)), Heq.
    simpl. split; [reflexivity|].
    autorewrite with traces. simpl. by rewrite Hr, Hd, Hf, Ha, Hc.
Qed.

(** Either the channel accepts the sends number 0 to n-1, or there is a
    first one that it rejects. *)
Lemma first_rejection w n :
  (∀ j, (j < n)%nat → w_reply w (Chunk j) = Delivered)
  ∨ ∃ k e, (k < n)%nat
           ∧ (∀ j, (j < k)%nat → w_reply w (Chunk j) = Delivered)
           ∧ w_reply w (Chunk k) = Rejected e.
Proof.
  induction n as [|n [Hall|(k & e & Hk & Hbefore & Hat)]].
  - left. intros j Hj. lia.
  - destruct (w_reply w (Chunk n)) as [|e] eqn:Hn.
    + left. intros j Hj. destruct (decide (j = n)) as [->|]; [done|].
      apply Hall. lia.
    + right. exists n, e. repeat split; [lia|done..].
  - right. exists k, e. repeat split; [lia|done..].
Qed.

Lemma generateResponse_eta env w u p s :
  generateResponse env w u p s
  = Outcome (after (generateResponse env w u p s))
      (trace (generateResponse env w u p s)) (verdict w).
Proof.
  rewrite <- (generateResponse_result env w u p s). apply outcome_eta.
Qed.

Lemma delivery_plan_nonempty response : delivery_plan response ≠ [].
Proof.
  intros Hnil. pose proof (delivery_plan_concat response) as Hc.
  rewrite Hnil in Hc. simpl in Hc. subst response.
  by rewrite delivery_plan_short in Hnil by (unfold str_length; simpl; lia).
Qed.

(** The handler when the endpoint answered and the send number [k] of the
    answer is the first that the channel rejects. *)
Lemma on_text_partial env w u msg s text k e :
  w_typing_first w = Delivered → verdict w = Ok text →
  (k < length (delivery_plan text))%nat →
  (∀ j, (j < k)%nat → w_reply w (Chunk j) = Delivered) →
  w_reply w (Chunk k) = Rejected e →
  let g := generateResponse env w u msg (armed_state s) in
  ∃ tr, on_text env w u msg s
        = Outcome (disarmed_state s (after g)) tr
            (match w_reply w Apology with
             | Delivered => Ok tt
             | Rejected e' => Throw e'
             end)
        ∧ replies tr
          = take (S k) (delivery_plan text) ++ [apology (errorMsg e)]
        ∧ delivered tr
          = take k (delivery_plan text)
            ++ match w_reply w Apology with
               | Delivered => [apology (errorMsg e)]
               | Rejected _ => []
               end
        ∧ fetches tr = fetches (trace g).
Proof.
  intros Hw Hv Hk Hbefore Hat g. rewrite on_text_armed by done.
  pose proof (generateResponse_eta env w u msg (armed_state s)) as Hg.
  rewrite Hv in Hg. fold g in Hg.
  assert (timers (after g) = timers s ++ [true]) as Ht
    by apply generateResponse_timers.
  destruct (reply_each_rejected w (delivery_plan text) 0%nat (after g) k e
              Hk Hbefore Hat) as (tr & Heq & Hr & Hd & Hf & _ & _).
  rewrite <- deliver_plan in Heq.
  erewrite try_finally_eq; last first.
  { erewrite try_catch_throw; last first.
    { rewrite (bind_ok _ _ _ _ _ _ Hg), Heq. reflexivity. }
    rewrite await_reply_spec. reflexivity. }
  rewrite <- (disarm s (after g) Ht).
  destruct (generateResponse_trace env w u msg (armed_state s)) as [sn Hsn].
  fold g in Hsn. rewrite Hsn.
  destruct (w_reply w Apology); simpl;
    (eexists; split; [reflexivity|]);
    autorewrite with traces; simpl; autorewrite with traces;
    by rewrite Hr, Hd, Hf, ?app_nil_r.
Qed.

(** X3: a send of the answer fails.  The endpoint answered in time and the
    channel accepted the first [k] messages of the answer and rejected the
    next one with an error [e].  Then the messages already sent stay sent,
    the remaining ones are never attempted, the handler's next and last
    send is the apology with the text for [e], and the exchange is stored
    all the same: the user's history ends with the prompt and the
    assistant turn. *)
Theorem X3_partial_delivery env w u msg s t st text k e :
  store_ok s →
  w_typing_first w = Delivered →
  w_endpoint w = Answers t st (Content text) →
  t < 120000 → (200 ≤ st ≤ 299)%N →
  (k < length (delivery_plan text))%nat →
  (∀ j, (j < k)%nat → w_reply w (Chunk j) = Delivered) →
  w_reply w (Chunk k) = Rejected e →
  let o := on_text env w u msg s in
  replies (trace o)
  = take (S k) (delivery_plan text) ++ [apology (errorMsg e)]
  ∧ take k (delivered (trace o)) = take k (delivery_plan text)
  ∧ (w_reply w Apology = Delivered →
       result o = Ok tt
       ∧ delivered (trace o)
         = take k (delivery_plan text) ++ [apology (errorMsg e)])
  ∧ history (after o) u
    = last_n 9 (history s u) ++ [Turn user msg; Turn assistant text].
Proof.
  intros Hok Hw Hep Ht Hst Hk Hbefore Hat o.
  pose proof (verdict_answered _ _ _ _ Hep Ht Hst) as Hv.
  destruct (on_text_partial env w u msg s text k e Hw Hv Hk Hbefore Hat)
    as (tr & Heq & Hr & Hd & _).
  subst o. rewrite Heq. cbn [trace after result].
  split; [done|]. split.
  { rewrite Hd, take_app_le by (rewrite length_take; lia).
    by rewrite take_take, Nat.min_id. }
  split.
  { intros Ha. by rewrite Hd, Ha. }
  pose proof (generateResponse_history env w u msg (armed_state s)
                (store_ok_armed s Hok)) as [_ Hh].
  cbv zeta in Hh. rewrite Hv, history_armed in Hh.
  by rewrite history_disarmed, Hh, last_n_snoc, <- app_assoc.
Qed.

Lemma X3_witness :
  let o := on_text default_env (breaks_at 1 timeout_error long_reply) 7
             (lit "hello") initial in
  replies (trace o)
  = take 2 (delivery_plan long_reply) ++ [apology too_long_text]
  ∧ history (after o) 7
    = [Turn user (lit "hello"); Turn assistant long_reply].
Proof.
  pose proof (X3_partial_delivery default_env
                (breaks_at 1 timeout_error long_reply) 7 (lit "hello") initial
                1500 200%N long_reply 1 timeout_error) as H.
  destruct H as (Hr & _ & _ & Hh).
  - exact store_ok_initial.
  - reflexivity.
  - reflexivity.
  - reflexivity.
  - split; vm_compute; discriminate.
  - vm_compute. lia.
  - intros j Hj. assert (j = 0%nat) as -> by lia. reflexivity.
  - reflexivity.
  - split; [exact Hr|exact Hh].
Defined.

(** ** The text handler in every world *)

(** The three ways in which the handler goes on after the first typing
    signal: the call throws; the call returns and every send of the answer
    is accepted; the call returns and some send of the answer is
    rejected. *)
Lemma on_text_cases w :
  (∃ e, verdict w = Throw e)
  ∨ (∃ text, verdict w = Ok text
       ∧ ∀ j, (j < length (delivery_plan text))%nat →
              w_reply w (Chunk j) = Delivered)
  ∨ (∃ text k e, verdict w = Ok text
       ∧ (k < length (delivery_plan text))%nat
       ∧ (∀ j, (j < k)%nat → w_reply w (Chunk j) = Delivered)
       ∧ w_reply w (Chunk k) = Rejected e).
Proof.
  destruct (verdict w) as [text|e]; [|eauto].
  right.
  destruct (first_rejection w (length (delivery_plan text)))
    as [Hall|(k & e & Hk & Hbefore & Hat)].
  - left. eauto.
  - right. exists text, k, e. eauto.
Qed.

Lemma on_text_fetches env w u msg s :
  w_typing_first w = Delivered →
  ∃ snapshot,
    fetches (trace (on_text env w u msg s)) = [request_for env snapshot]
    ∧ trace (generateResponse env w u msg (armed_state s))
      = EFetch (request_for env snapshot) :: (ETyping <$> w_ticks_inference w).
Proof.
  intros Hw.
  destruct (generateResponse_trace env w u msg (armed_state s)) as [sn Hsn].
  exists sn. split; [|done].
  destruct (on_text_cases w)
    as [[e Hv]|[(text & Hv & Hall)|(text & k & e & Hv & Hk & Hb & Hat)]].
  - rewrite (on_text_failed _ _ _ _ _ _ Hw Hv). cbn [trace]. rewrite Hsn.
    autorewrite with traces. simpl. by autorewrite with traces.
  - destruct (on_text_delivered env w u msg s text Hw Hv Hall)
      as (tr & -> & _ & _ & Hf).
    cbn [trace]. rewrite Hf, Hsn. simpl. by rewrite fetches_typing.
  - destruct (on_text_partial env w u msg s text k e Hw Hv Hk Hb Hat)
      as (tr & -> & _ & _ & Hf).
    cbn [trace]. rewrite Hf, Hsn. simpl. by rewrite fetches_typing.
Qed.

Lemma on_text_replies_nonempty env w u msg s :
  w_typing_first w = Delivered →
  replies (trace (on_text env w u msg s)) ≠ [].
Proof.
  intros Hw.
  destruct (on_text_cases w)
    as [[e Hv]|[(text & Hv & Hall)|(text & k & e & Hv & Hk & Hb & Hat)]].
  - rewrite (on_text_failed _ _ _ _ _ _ Hw Hv). cbn [trace].
    destruct (generateResponse_trace env w u msg (armed_state s)) as [sn ->].
    autorewrite with traces. simpl. by autorewrite with traces.
  - destruct (on_text_delivered env w u msg s text Hw Hv Hall)
      as (tr & -> & Hr & _ & _).
    cbn [trace]. rewrite Hr. apply delivery_plan_nonempty.
  - destruct (on_text_partial env w u msg s text k e Hw Hv Hk Hb Hat)
      as (tr & -> & Hr & _ & _).
    cbn [trace]. rewrite Hr. by intros [_ ?]%app_eq_nil.
Qed.

Lemma on_text_throw env w u msg s e :
  result (on_text env w u msg s) = Throw e →
  w_typing_first w = Rejected e
  ∨ (w_typing_first w = Delivered ∧ w_reply w Apology = Rejected e).
Proof.
  destruct (w_typing_first w) as [|e0] eqn:Hw.
  - intros Hr. right. split; [done|]. revert Hr.
    destruct (on_text_cases w)
      as [[e1 Hv]|[(text & Hv & Hall)|(text & k & e1 & Hv & Hk & Hb & Hat)]].
    + rewrite (on_text_failed _ _ _ _ _ _ Hw Hv). cbn [result].
      destruct (w_reply w Apology); [done|]. by intros [= ->].
    + by destruct (on_text_delivered env w u msg s text Hw Hv Hall)
        as (tr & -> & _).
    + destruct (on_text_partial env w u msg s text k e1 Hw Hv Hk Hb Hat)
        as (tr & -> & _). cbn [result].
      destruct (w_reply w Apology); [done|]. by intros [= ->].
  - rewrite (on_text_unsent _ _ _ _ _ _ Hw). cbn [result].
    intros [= ->]. by left.
Qed.

Lemma handle_text_trace env w u msg s :
  trace (handle_text env w u msg s)
  = trace (on_text env w u msg s)
    ++ match result (on_text env w u msg s) with
       | Ok _ => []
       | Throw _ => [EReply unexpected_text (w_reply w Unexpected)]
       end.
Proof.
  unfold handle_text, try_catch.
  destruct (on_text env w u msg s) as [s' tr [[]|e]]; cbn [trace result].
  - by rewrite app_nil_r.
  - unfold bot_catch, swallow, try_catch, reply, bind, emit.
    by destruct (w_reply w Unexpected).
Qed.

(** X4: whatever the call throws (a rejection of [fetch], an error
    status, a body that cannot be read), the handler sends one request and
    makes exactly one reply, the apology.  Its text is chosen in this
    order: the "took too long" text for an error named TimeoutError, even
    one whose cause has the code ECONNREFUSED; else the "not available"
    text for that cause code; else the error's own message.  The error
    does not leave the handler when the channel accepts the apology. *)
Theorem X4_every_failure_gets_one_apology env w u msg s e :
  w_typing_first w = Delivered →
  result (generateResponse env w u msg s) = Throw e →
  let o := on_text env w u msg s in
  replies (trace o) = [apology (errorMsg e)]
  ∧ length (fetches (trace o)) = 1%nat
  ∧ errorMsg e
    = (if decide (name e = lit "TimeoutError") then too_long_text
       else if decide (cause_code e = Some (lit "ECONNREFUSED"))
            then unavailable_text
            else message e)
  ∧ (w_reply w Apology = Delivered → result o = Ok tt).
Proof.
  intros Hw Hr o. rewrite generateResponse_result in Hr.
  destruct (on_text_fetches env w u msg s Hw) as (sn & Hf & Hsn).
  subst o. rewrite Hf. rewrite (on_text_failed _ _ _ _ _ _ Hw Hr).
  cbn [trace result]. rewrite Hsn.
  autorewrite with traces. simpl replies. autorewrite with traces.
  repeat split; try done.
  - unfold errorMsg. repeat case_decide;
      rewrite ?bool_decide_eq_true_2, ?bool_decide_eq_false_2 by done; done.
  - by intros ->.
Qed.

Lemma X4_witness :
  replies (trace (on_text default_env (breaking confused_error) 7
                    (lit "hello") initial))
  = [apology too_long_text].
Proof.
  apply (X4_every_failure_gets_one_apology default_env
           (breaking confused_error) 7 (lit "hello") initial confused_error
           eq_refl eq_refl).
Defined.

(** X5: no retry.  A text update for which the first typing signal went
    through sends exactly one request to the endpoint, whatever the
    endpoint answers and whatever the channel does with the replies; an
    update whose first typing signal is rejected sends none.  The error
    handler of the framework adds no request. *)
Theorem X5_one_request_per_message env w u msg s :
  let o := handle_text env w u msg s in
  length (fetches (trace o))
  = match w_typing_first w with
    | Delivered => 1%nat
    | Rejected _ => 0%nat
    end.
Proof.
  cbv zeta. rewrite handle_text_trace, fetches_app.
  assert (fetches match result (on_text env w u msg s) with
                  | Ok _ => []
                  | Throw _ => [EReply unexpected_text (w_reply w Unexpected)]
                  end = []) as -> by (by destruct (result _)).
  rewrite app_nil_r.
  destruct (w_typing_first w) as [|e] eqn:Hw.
  - by destruct (on_text_fetches env w u msg s Hw) as (sn & -> & _).
  - by rewrite (on_text_unsent _ _ _ _ _ _ Hw).
Qed.

(** X6: every text update is answered by at least one attempt to reply:
    the answer, the apology, or the generic text of [bot.catch]. *)
Theorem X6_every_message_gets_a_reply_attempt env w u msg s :
  (1 ≤ length (replies (trace (handle_text env w u msg s))))%nat.
Proof.
  rewrite handle_text_trace, replies_app, length_app.
  destruct (w_typing_first w) as [|e] eqn:Hw.
  - pose proof (on_text_replies_nonempty env w u msg s Hw) as Hne.
    destruct (replies (trace (on_text env w u msg s))); [done|simpl; lia].
  - rewrite (on_text_unsent _ _ _ _ _ _ Hw). simpl. lia.
Qed.

(** X7: what leaves the text handler.  The handler throws only what the
    channel threw at it: the rejection of the first typing signal, or the
    rejection of the apology.  An error of the inference call never leaves
    it.  Whatever the handler throws, the framework's handler returns
    normally, in the state the handler reached, after one more attempt to
    reply with the generic text. *)
Theorem X7_only_channel_errors_escape env w u msg s :
  (∀ e, result (on_text env w u msg s) = Throw e →
     w_typing_first w = Rejected e
     ∨ (w_typing_first w = Delivered ∧ w_reply w Apology = Rejected e))
  ∧ result (handle_text env w u msg s) = Ok tt
  ∧ after (handle_text env w u msg s) = after (on_text env w u msg s)
  ∧ trace (handle_text env w u msg s)
    = trace (on_text env w u msg s)
      ++ match result (on_text env w u msg s) with
         | Ok _ => []
         | Throw _ => [EReply unexpected_text (w_reply w Unexpected)]
         end.
Proof.
  split; [apply on_text_throw|].
  split; [apply handle_text_returns|].
  split; [apply handle_text_after|apply handle_text_trace].
Qed.

Lemma X7_witness :
  w_reply refusing Apology = Rejected timeout_error
  ∧ result (handle_text default_env refusing 7 (lit "hello") initial) = Ok tt.
Proof.
  pose proof (X7_only_channel_errors_escape default_env refusing 7
                (lit "hello") initial) as (Hthrow & Hret & _).
  destruct (Hthrow timeout_error eq_refl) as [Hfirst|[_ Hapology]].
  - discriminate Hfirst.
  - split; [exact Hapology|exact Hret].
Defined.

(** X8: the order of the handler's calls when the first typing signal
    went through.  The typing signal is the first call, the interval is
    armed right after it with a period of 5000 ms, and clearing that
    interval is the last call; nothing in between arms or clears a
    timer. *)
Theorem X8_signal_first_clear_last env w u msg s :
  w_typing_first w = Delivered →
  let id := length (timers s) in
  ∃ between,
    trace (on_text env w u msg s)
    = ETyping Delivered :: ESetInterval id 5000 :: between
      ++ [EClearInterval id]
    ∧ armed between = [] ∧ cleared between = []
    ∧ fetches between ≠ [].
Proof.
  intros Hw id. rewrite on_text_armed by done.
  unfold try_finally.
  pose proof (quiet_try_block env w u msg (armed_state s)) as (_ & Ha & Hc).
  destruct (on_text_fetches env w u msg s Hw) as (sn & Hf & _).
  rewrite on_text_armed in Hf by done. unfold try_finally in Hf.
  destruct (try_catch _ _ (armed_state s)) as [s1 tr r].
  cbn [trace] in Ha, Hc. cbn [trace prepend finally_result clearInterval app] in *.
  autorewrite with traces in Hf. simpl in Hf.
  rewrite fetches_app, app_nil_r in Hf.
  exists tr. repeat split; try done. by rewrite Hf.
Qed.

Lemma X8_witness :
  ∃ between,
    trace (on_text default_env silent 7 (lit "hello") initial)
    = ETyping Delivered :: ESetInterval 0 5000 :: between
      ++ [EClearInterval 0].
Proof.
  destruct (X8_signal_first_clear_last default_env silent 7 (lit "hello")
              initial eq_refl) as (between & Htr & _).
  exists between. exact Htr.
Defined.

(** ** One user's exchanges leave the other users alone *)

(** What a call for [u] does to the heap and to the Map: arrays that are
    not the one of [u] are untouched, and the Map changes at most at [u],
    to the array of [u] or to an array made during the call. *)
Lemma generateResponse_frame env w u p s :
  store_ok s →
  let s' := after (generateResponse env w u p s) in
  (∀ b, (b < length (heap s))%nat → userContexts s !! u ≠ Some b →
        heap s' !! b = heap s !! b)
  ∧ (userContexts s' = userContexts s
     ∨ ∃ c, userContexts s' = <[u := c]> (userContexts s)
            ∧ (userContexts s !! u = Some c ∨ (length (heap s) ≤ c)%nat)).
Proof.
  intros Hok. cbv zeta. rewrite generateResponse_split.
  destruct (userContexts s !! u) as [a|] eqn:Hu.
  - destruct (lookup_lt_is_Some_2 _ _ (Hok _ _ Hu)) as [h Ha].
    pose proof (lookup_lt_Some _ _ _ Ha) as Hlt.
    destruct (decide (length h < 10)%nat) as [Hlen|Hlen].
    + rewrite (bind_ok _ _ _ _ _ _ (window_short _ p _ _ _ Hu Ha Hlen)).
      rewrite complete_spec, after_prepend. cbn [after].
      destruct (verdict w); cbn [heap userContexts]; split.
      * intros b Hb Hne. rewrite !list_lookup_alter_ne; [done|congruence..].
      * right. exists a. split; [done|by left].
      * intros b Hb Hne. rewrite list_lookup_alter_ne; [done|congruence].
      * by left.
    + rewrite (bind_ok _ _ _ _ _ _ (window_long _ p _ _ _ Hu Ha ltac:(lia))).
      rewrite complete_spec, after_prepend. cbn [after].
      destruct (verdict w); cbn [heap userContexts]; split.
      * intros b Hb Hne. rewrite list_lookup_alter_ne by lia.
        rewrite lookup_app_l by (rewrite length_alter; lia).
        rewrite list_lookup_alter_ne; [done|congruence].
      * right. exists (length (heap s)). split; [done|right; lia].
      * intros b Hb Hne.
        rewrite lookup_app_l by (rewrite length_alter; lia).
        rewrite list_lookup_alter_ne; [done|congruence].
      * by left.
  - rewrite (bind_ok _ _ _ _ _ _ (window_absent _ p _ Hu)).
    rewrite complete_spec, after_prepend. cbn [after].
    destruct (verdict w); cbn [heap userContexts]; split.
    + intros b Hb Hne. rewrite list_lookup_alter_ne by lia.
      by rewrite lookup_app_l by lia.
    + right. exists (length (heap s)). split; [done|right; lia].
    + intros b Hb Hne. by rewrite lookup_app_l by lia.
    + by left.
Qed.

Lemma generateResponse_other env w u p s v :
  store_ok s → no_alias s → v ≠ u →
  let s' := after (generateResponse env w u p s) in
  userContexts s' !! v = userContexts s !! v
  ∧ history s' v = history s v.
Proof.
  intros Hok Hna Hvu s'.
  destruct (generateResponse_frame env w u p s Hok) as [Hheap Hmap].
  fold s' in Hheap, Hmap.
  assert (userContexts s' !! v = userContexts s !! v) as Hv.
  { destruct Hmap as [Hm|(c & Hm & _)]; rewrite Hm; [done|].
    by rewrite lookup_insert_ne. }
  split; [done|]. unfold history. rewrite Hv.
  destruct (userContexts s !! v) as [b|] eqn:Hb; [|done].
  rewrite Hheap; [done|by eapply Hok|].
  intros Hub. apply Hvu. by apply (Hna v u b).
Qed.

Lemma generateResponse_no_alias env w u p s :
  store_ok s → no_alias s →
  no_alias (after (generateResponse env w u p s)).
Proof.
  intros Hok Hna.
  destruct (generateResponse_frame env w u p s Hok) as [_ Hmap].
  unfold no_alias.
  destruct Hmap as [Hm|(c & Hm & Hc)]; rewrite Hm; [done|].
  intros v1 v2 a.
  destruct (decide (u = v1)) as [<-|H1], (decide (u = v2)) as [<-|H2];
    rewrite ?lookup_insert_eq, ?lookup_insert_ne by done; try done.
  - intros [= <-] H2c. destruct Hc as [Hc|Hc].
    + by apply (Hna u v2 c).
    + specialize (Hok _ _ H2c). lia.
  - intros H1c [= <-]. destruct Hc as [Hc|Hc].
    + by apply (Hna v1 u c).
    + specialize (Hok _ _ H1c). lia.
  - apply Hna.
Qed.

Lemma no_alias_initial : no_alias initial.
Proof. intros u v a. simpl. by rewrite lookup_empty. Qed.

Lemma on_clear_no_alias w u s : no_alias s → no_alias (after (on_clear w u s)).
Proof.
  intros Hna v1 v2 a. rewrite on_clear_spec. simpl.
  intros [_ H1]%lookup_delete_Some [_ H2]%lookup_delete_Some.
  by apply (Hna v1 v2 a).
Qed.

Lemma reachable_no_alias env s : reachable env s → no_alias s.
Proof.
  induction 1 as [|w u msg s Hreach IH|w u s _ IH].
  - apply no_alias_initial.
  - rewrite handle_text_after.
    destruct (w_typing_first w) as [|e] eqn:Hw.
    + rewrite on_text_after by done.
      exact (generateResponse_no_alias env w u msg (armed_state s)
               (reachable_store_ok env s Hreach) IH).
    + by rewrite (on_text_unsent _ _ _ _ _ _ Hw).
  - by apply on_clear_no_alias.
Qed.

(** X9: the invariant of the Context Store.  In every state that the bot
    reaches by handling text updates and clear commands one after the
    other, every entry of the Map refers to an existing array and no two
    users share an array. *)
Theorem X9_store_invariant env s :
  reachable env s → store_ok s ∧ no_alias s.
Proof.
  intros Hreach. split;
    [by apply (reachable_store_ok env)|by apply (reachable_no_alias env)].
Qed.

Lemma seeded_reachable :
  reachable default_env
    (after (handle_text default_env (obliging (lit "hi there")) 7
              (lit "hello") initial)).
Proof. apply reach_text, reach_initial. Qed.

Lemma X9_witness :
  store_ok (after (handle_text default_env (obliging (lit "hi there")) 7
                     (lit "hello") initial)).
Proof.
  apply (X9_store_invariant default_env). exact seeded_reachable.
Defined.

(** X10: isolation of users.  In a reachable state, handling a text
    update of user [u] (whatever the endpoint and the channel do) leaves
    the Map entry and the stored history of every other user as they were;
    so does a clear command of [u] whose confirmation the channel accepts,
    after which the process runs on.  A clear command whose confirmation
    the channel rejects ends the process, and with it every history. *)
Theorem X10_other_users_untouched env w u v msg s :
  reachable env s → v ≠ u →
  (userContexts (after (handle_text env w u msg s)) !! v = userContexts s !! v
   ∧ history (after (handle_text env w u msg s)) v = history s v)
  ∧ (w_reply w Confirmation = Delivered →
       ∃ s', process_after (on_clear w u s) = Running s'
             ∧ userContexts s' !! v = userContexts s !! v
             ∧ history s' v = history s v)
  ∧ (∀ e, w_reply w Confirmation = Rejected e →
       process_after (on_clear w u s) = Exited e).
Proof.
  intros Hreach Hvu.
  pose proof (reachable_store_ok env s Hreach) as Hok.
  pose proof (reachable_no_alias env s Hreach) as Hna.
  split; [|split].
  - rewrite handle_text_after.
    destruct (w_typing_first w) as [|e] eqn:Hw.
    + rewrite on_text_after by done.
      exact (generateResponse_other env w u msg (armed_state s) v Hok Hna Hvu).
    + by rewrite (on_text_unsent _ _ _ _ _ _ Hw).
  - intros Hd. rewrite on_clear_spec, Hd. eexists. split; [reflexivity|].
    unfold history. simpl. by rewrite lookup_delete_ne.
  - intros e He. by rewrite on_clear_spec, He.
Qed.

Lemma X10_witness :
  let s := after (handle_text default_env (obliging (lit "hi there")) 7
                    (lit "hello") initial) in
  history (after (handle_text default_env (obliging (lit "yes")) 8
                    (lit "anyone?") s)) 7
  = history s 7
  ∧ ∃ s', process_after (on_clear (obliging (lit "yes")) 8 s) = Running s'
          ∧ history s' 7 = history s 7.
Proof.
  intros s.
  destruct (X10_other_users_untouched default_env (obliging (lit "yes")) 8 7
              (lit "anyone?") s seeded_reachable) as ([_ Htext] & Hclear & _).
  - discriminate.
  - split; [exact Htext|].
    destruct (Hclear eq_refl) as (s' & Hrun & _ & Hh).
    exists s'. split; [exact Hrun|exact Hh].
Defined.

(** ** The stored history as a window on the conversation *)

Lemma last_n_app_ge {A} n (l k : list A) :
  (n ≤ length k)%nat → last_n n (l ++ k) = last_n n k.
Proof.
  intros Hn. unfold last_n. rewrite length_app.
  rewrite drop_app_ge by lia. f_equal. lia.
Qed.

Lemma last_n_last_n_app {A} n (l k : list A) :
  last_n n (last_n n l ++ k) = last_n n (l ++ k).
Proof.
  destruct (decide (length l ≤ n)%nat) as [Hl|Hl].
  - by rewrite (last_n_all n l).
  - rewrite <- (take_drop (length l - n) l) at 2.
    fold (last_n n l). rewrite <- app_assoc.
    rewrite (last_n_app_ge n (take _ l)); [done|].
    rewrite length_app, last_n_length. lia.
Qed.

Lemma is_ok_verdict env w u p s :
  is_ok (result (generateResponse env w u p s)) = true →
  ∃ text, verdict w = Ok text.
Proof.
  rewrite generateResponse_result. destruct (verdict w); [eauto|done].
Qed.

Lemma returned_calls_window env u calls : ∀ s,
  store_ok s → calls ≠ [] →
  forallb is_ok (answers env u calls s) = true →
  history (exchanges env u calls s) u
  = last_n 11 (history s u ++ transcript calls (answers env u calls s)).
Proof.
  induction calls as [|[w p] calls IH]; intros s Hok Hne Hall; [done|].
  simpl in Hall. apply andb_prop in Hall as [Hfirst Hall].
  destruct (is_ok_verdict _ _ _ _ _ Hfirst) as [text Hv].
  destruct (generateResponse_history env w u p s Hok) as [_ Hh].
  rewrite Hv in Hh.
  pose proof (generateResponse_store_ok env w u p s Hok) as Hok1.
  simpl. rewrite generateResponse_result, Hv.
  set (s1 := after (generateResponse env w u p s)) in *.
  assert (history s1 u
          = last_n 11 (history s u ++ [Turn user p; Turn assistant text]))
    as Hh1.
  { rewrite Hh.
    by rewrite <- (last_n_snoc 10 (history s u ++ [Turn user p])), <- app_assoc. }
  destruct calls as [|c calls'].
  - simpl. by rewrite Hh1.
  - rewrite IH by done. rewrite Hh1, last_n_last_n_app.
    by rewrite <- app_assoc.
Qed.

(** X11: the stored history is a sliding window on the conversation.
    After one or more successive calls for a user that all return, the
    stored history is the last 11 turns, in their order, of what was
    stored before followed by the prompts and answers of these calls. *)
Theorem X11_history_is_last_eleven env u calls s :
  store_ok s → calls ≠ [] →
  forallb is_ok (answers env u calls s) = true →
  history (exchanges env u calls s) u
  = last_n 11 (history s u ++ transcript calls (answers env u calls s))
  ∧ (length (history (exchanges env u calls s) u) ≤ 11)%nat.
Proof.
  intros Hok Hne Hall.
  rewrite (returned_calls_window env u calls s Hok Hne Hall).
  split; [done|]. rewrite last_n_length. lia.
Qed.

Lemma X11_witness :
  history (exchanges default_env 7 six_calls seeded) 7
  = last_n 11 (history seeded 7
               ++ transcript six_calls (answers default_env 7 six_calls seeded)).
Proof.
  apply (X11_history_is_last_eleven default_env 7 six_calls seeded).
  - exact seeded_ok.
  - discriminate.
  - vm_compute. reflexivity.
Defined.

(** ** The request *)

Lemma fetches_fetch req tr : fetches (EFetch req :: tr) = req :: fetches tr.
Proof. reflexivity. Qed.

Lemma last_snoc_last_n {A} n (l : list A) x :
  last (last_n (S n) (l ++ [x])) = Some x.
Proof. rewrite last_n_snoc. apply last_snoc. Qed.

(** X12: the request of a call.  In a state where the Map refers to
    existing arrays, a call sends one request.  Its address is the value
    of OLLAMA_HOST followed by /api/chat, and http://ollama:11434/api/chat
    when the variable is unset or empty; its model is the value of
    OLLAMA_MODEL, and mistral when that variable is unset or empty.
    Streaming is off and the timeout is 120000 ms.  Its messages are the
    last 10 turns of the stored history followed by the prompt: at least 1
    and at most 10 of them, the prompt as a user turn being the last. *)
Theorem X12_request_shape env w u p s :
  store_ok s →
  ∃ req,
    fetches (trace (generateResponse env w u p s)) = [req]
    ∧ (∀ host, env_OLLAMA_HOST env = Some host → host ≠ [] →
         url req = host ++ lit "/api/chat")
    ∧ (env_OLLAMA_HOST env = None ∨ env_OLLAMA_HOST env = Some [] →
         url req = lit "http://ollama:11434/api/chat")
    ∧ (∀ name, env_OLLAMA_MODEL env = Some name → name ≠ [] →
         model req = name)
    ∧ (env_OLLAMA_MODEL env = None ∨ env_OLLAMA_MODEL env = Some [] →
         model req = lit "mistral")
    ∧ stream req = false ∧ timeout_ms req = 120000
    ∧ messages req = last_n 10 (history s u ++ [Turn user p])
    ∧ (1 ≤ length (messages req) ≤ 10)%nat
    ∧ last (messages req) = Some (Turn user p).
Proof.
  intros Hok.
  destruct (generateResponse_history env w u p s Hok) as [Htr _].
  eexists. rewrite Htr, fetches_fetch, fetches_typing.
  split; [reflexivity|]. cbn [request_for url model stream timeout_ms messages].
  unfold OLLAMA_HOST, OLLAMA_MODEL.
  split. { intros host -> Hne. by destruct host. }
  split. { by intros [-> | ->]. }
  split. { intros name -> Hne. by destruct name. }
  split. { by intros [-> | ->]. }
  split; [done|]. split; [done|]. split; [done|].
  split; [|apply last_snoc_last_n].
  rewrite last_n_length, length_app. simpl. lia.
Qed.

Lemma X12_witness :
  ∃ req,
    fetches (trace (generateResponse default_env (obliging []) 7 (lit "hello") seeded))
    = [req]
    ∧ url req = lit "http://ollama:11434/api/chat"
    ∧ model req = lit "mistral"
    ∧ messages req
      = [Turn user (lit "hello"); Turn assistant (lit "hi there");
         Turn user (lit "hello")].
Proof.
  destruct (X12_request_shape default_env (obliging []) 7 (lit "hello") seeded
              seeded_ok) as (req & Hf & _ & Hurl & _ & Hmodel & _ & _ & Hm & _).
  exists req. split; [exact Hf|].
  split; [apply Hurl; left; reflexivity|].
  split; [apply Hmodel; left; reflexivity|].
  rewrite Hm. reflexivity.
Defined.

(** X13: clearing forgets.  After a clear command of a user, in any
    state, the user's next call sends only the new prompt to the endpoint;
    if the call returns, the stored history is this one exchange, and if
    it throws, nothing is stored for the user. *)
Theorem X13_first_call_after_clear env w0 w u p s :
  let s0 := after (on_clear w0 u s) in
  let o := generateResponse env w u p s0 in
  fetches (trace o) = [request_for env [Turn user p]]
  ∧ match result o with
    | Ok text => history (after o) u = [Turn user p; Turn assistant text]
    | Throw _ => userContexts (after o) !! u = None ∧ history (after o) u = []
    end.
Proof.
  cbv zeta. rewrite on_clear_spec. cbn [after].
  set (s0 := State (heap s) (delete u (userContexts s)) (timers s)).
  assert (userContexts s0 !! u = None) as Hu by apply lookup_delete_eq.
  rewrite generateResponse_split.
  rewrite (bind_ok _ _ _ _ _ _ (window_absent _ p _ Hu)).
  rewrite complete_spec. cbn [prepend trace after result app heap].
  rewrite lookup_app_r, Nat.sub_diag by lia. cbn [lookup list_lookup default].
  split.
  { by rewrite fetches_fetch, fetches_typing. }
  destruct (verdict w) as [text|e].
  - unfold history. cbn [userContexts heap]. rewrite lookup_insert_eq.
    by rewrite push_fresh, lookup_app_r, Nat.sub_diag by lia.
  - cbn [userContexts]. split; [done|]. by apply history_absent.
Qed.

(** X14: a failed prompt is not forgotten when the user has an entry.
    If a call of a user with a stored history throws, the user's next call
    sends the last 10 turns of: the history as it was, the failed prompt,
    the new prompt. *)
Theorem X14_failed_prompt_is_resent env w1 w2 u p1 p2 s :
  store_ok s → is_Some (userContexts s !! u) →
  is_throw (result (generateResponse env w1 u p1 s)) = true →
  let s1 := after (generateResponse env w1 u p1 s) in
  fetches (trace (generateResponse env w2 u p2 s1))
  = [request_for env
       (last_n 10 (history s u ++ [Turn user p1; Turn user p2]))].
Proof.
  intros Hok [a Ha] Hthrow s1.
  destruct (failed_call_state env w1 u p1 s Hok Hthrow) as [_ Hh].
  fold s1 in Hh. rewrite Ha in Hh.
  destruct (generateResponse_history env w2 u p2 s1) as [Htr _].
  { by apply generateResponse_store_ok. }
  by rewrite Htr, Hh, <- app_assoc, fetches_fetch, fetches_typing.
Qed.

Lemma X14_witness :
  fetches (trace (generateResponse default_env (obliging []) 7 (lit "again")
                    (after (generateResponse default_env refusing 7
                              (lit "lost?") seeded))))
  = [request_for default_env
       [Turn user (lit "hello"); Turn assistant (lit "hi there");
        Turn user (lit "lost?"); Turn user (lit "again")]].
Proof.
  apply (X14_failed_prompt_is_resent default_env refusing (obliging []) 7
           (lit "lost?") (lit "again") seeded seeded_ok).
  - eexists. vm_compute. reflexivity.
  - vm_compute. reflexivity.
Defined.

(** ** The start and help commands *)

(** The start and help commands make one send, which they do not await:
    the state is as it was, and the process runs on exactly when the channel
    accepts the send. *)
Lemma command_text_fate r text s :
  let o := floating (reply r text) s in
  after o = s ∧ replies (trace o) = [text]
  ∧ process_after o
    = match r with
      | Delivered => Running s
      | Rejected e => Exited e
      end.
Proof. cbv zeta. unfold floating, reply, bind, emit. by destruct r. Qed.

(** ** The periodic signals *)

Lemma without_typing_cons ev tr :
  without_typing (ev :: tr)
  = match ev with
    | ETyping _ => without_typing tr
    | _ => ev :: without_typing tr
    end.
Proof. by destruct ev. Qed.

Lemma omap_cons_case {B} (pick : event → option B) ev tr :
  omap pick (ev :: tr)
  = match pick ev with
    | Some y => y :: omap pick tr
    | None => omap pick tr
    end.
Proof. reflexivity. Qed.

Section ThroughWithoutTyping.
Context {B : Type} (pick : event → option B).
Hypothesis pick_typing : ∀ r, pick (ETyping r) = None.

Lemma omap_without_typing tr : omap pick (without_typing tr) = omap pick tr.
Proof using pick_typing.
  induction tr as [|ev tr IH]; [done|].
  rewrite without_typing_cons, (omap_cons_case pick ev tr).
  destruct ev; rewrite ?pick_typing, ?omap_cons_case, IH; done.
Qed.
End ThroughWithoutTyping.

(** X16: the periodic typing signals are cosmetic.  Two runs of the
    handler that differ only in how many periodic signals fire and in
    which of them the channel rejects end in the same state with the same
    result, and make the same replies, the same request and the same timer
    calls. *)
Theorem X16_periodic_signals_are_cosmetic env w w' u msg s :
  same_but_ticks w w' →
  let o := on_text env w u msg s in
  let o' := on_text env w' u msg s in
  after o = after o' ∧ result o = result o'
  ∧ replies (trace o) = replies (trace o')
  ∧ delivered (trace o) = delivered (trace o')
  ∧ fetches (trace o) = fetches (trace o')
  ∧ armed (trace o) = armed (trace o')
  ∧ cleared (trace o) = cleared (trace o').
Proof.
  intros Hsame o o'.
  destruct (periodic_signals_do_not_matter env w w' u msg s Hsame)
    as (Ha & Hr & Ht).
  fold o o' in Ha, Hr, Ht.
  split; [done|]. split; [done|].
  unfold replies, delivered, fetches, armed, cleared.
  repeat split.
  all: match goal with
       | |- omap ?pick _ = _ =>
           rewrite <- (omap_without_typing pick ltac:(done) (trace o));
           rewrite <- (omap_without_typing pick ltac:(done) (trace o'));
           by rewrite Ht
       end.
Qed.

Lemma X16_witness :
  let flaky := World Delivered Silent (replicate 23 (Rejected timeout_error))
                 (λ _, Delivered) (λ _, [Rejected timeout_error]) in
  result (on_text default_env silent 7 (lit "hello") initial)
  = result (on_text default_env flaky 7 (lit "hello") initial)
  ∧ replies (trace (on_text default_env silent 7 (lit "hello") initial))
    = replies (trace (on_text default_env flaky 7 (lit "hello") initial)).
Proof.
  intros flaky.
  destruct (X16_periodic_signals_are_cosmetic default_env silent flaky 7
              (lit "hello") initial) as (_ & Hr & Hrep & _).
  - repeat split.
  - split; [exact Hr|exact Hrep].
Defined.
